(** * Chord inference from MIDI note events

    A shallow embedding of [ChordExtractor] from
    [scripts/comprehensive_chord_extractor.py]: the chord-template table
    built in [__init__], [pitches_to_chord_name] and [midi_to_chords].

    Modelling choices.
    - Python integers are [Z]; [%] with a positive modulus is [Z.modulo].
    - Note times are floats in the source.  [ChordExtractor] below computes
      with exact rationals [Q], compared with [Qle_bool]: it is the program
      without rounding.  [Machine] is the same code over an arithmetic that
      is left open, with binary64 and [Q] as instances; what depends on the
      values the rounded sums and quotients take is stated there.
    - A [frozenset] of pitch classes is a [gset Z], the template dictionary a
      [gmap (gset Z) string].
    - A [Counter] is an association list in first-insertion order, since
      [most_common] breaks ties by that order.
    - Exceptions are an explicit outcome; the [while] loop takes fuel, and
      running out of fuel is a third outcome, distinct from every Python
      result. *)

From Stdlib Require Import ZArith QArith Qround Ascii String List Lia.
From Stdlib Require Import Floats.
From stdpp Require Import gmap strings list fin_maps.

Local Open Scope string_scope.
Local Open Scope list_scope.
Local Open Scope Z_scope.

(** ** Outcomes of a Python computation *)

Inductive exn : Type :=
  | IndexError
  | ValueError.

Inductive outcome (A : Type) : Type :=
  | Done (a : A)
  | Raised (e : exn)
  | OutOfFuel.

Arguments Done {A} a.
Arguments Raised {A} e.
Arguments OutOfFuel {A}.

#[global] Instance outcome_ret : MRet outcome := fun A a => Done a.

#[global] Instance outcome_bind : MBind outcome := fun A B f m =>
  match m with
  | Done a => f a
  | Raised e => Raised e
  | OutOfFuel => OutOfFuel
  end.

#[global] Instance outcome_fmap : FMap outcome := fun A B f m =>
  match m with
  | Done a => Done (f a)
  | Raised e => Raised e
  | OutOfFuel => OutOfFuel
  end.

(** ** Python built-ins used by the extractor *)

Module Py.

(** [l[i]]: a negative index counts from the end, anything outside
    [-len l .. len l - 1] raises [IndexError]. *)
Definition getitem {A : Type} (l : list A) (i : Z) : outcome A :=
  let n := Z.of_nat (length l) in
  let j := if i <? 0 then i + n else i in
  if (0 <=? j) && (j <? n) then
    match l !! Z.to_nat j with
    | Some x => Done x
    | None => Raised IndexError
    end
  else Raised IndexError.

(** [frozenset(l)]. *)
Definition frozenset (l : list Z) : gset Z := list_to_set l.

(** A dictionary display [{k1: v1, k2: v2, ...}]: entries are inserted left
    to right, so a later entry overrides an earlier one with the same key. *)
Definition dict {V : Type} (entries : list (gset Z * V)) : gmap (gset Z) V :=
  foldl (fun m kv => <[kv.1 := kv.2]> m) ∅ entries.

Definition Qlt_bool (x y : Q) : bool := negb (Qle_bool y x).

(** [int(x)] on a float truncates toward zero. *)
Definition int (x : Q) : Z := Z.quot (Qnum x) (QDen x).

(** [max(iterable)]: the first maximal element, [ValueError] when empty. *)
Definition max (l : list Q) : outcome Q :=
  match l with
  | [] => Raised ValueError
  | x :: rest => Done (foldl (fun m y => if Qlt_bool m y then y else m) x rest)
  end.

(** [l.sort(key=...)] is stable; every stable sort returns the same list.
    [insert_by] puts [x] in front of the first element whose key is not
    smaller than the key of [x]. *)
Fixpoint insert_by {A : Type} (key : A -> Q) (x : A) (l : list A) : list A :=
  match l with
  | [] => [x]
  | y :: l' =>
      if Qlt_bool (key y) (key x) then y :: insert_by key x l'
      else x :: y :: l'
  end.

Fixpoint sorted_by {A : Type} (key : A -> Q) (l : list A) : list A :=
  match l with
  | [] => []
  | x :: l' => insert_by key x (sorted_by key l')
  end.

(** [collections.Counter]: keys in order of first insertion. *)
Fixpoint counter_incr (p : Z) (c : list (Z * nat)) : list (Z * nat) :=
  match c with
  | [] => [(p, 1%nat)]
  | (q, n) :: c' =>
      if p =? q then (q, S n) :: c' else (q, n) :: counter_incr p c'
  end.

Definition Counter (l : list Z) : list (Z * nat) :=
  foldl (fun c p => counter_incr p c) [] l.

(** [Counter.most_common(n)] is [sorted(items, key=count, reverse=True)[:n]]
    and the sort is stable: equal counts keep their insertion order. *)
Fixpoint insert_by_count (x : Z * nat) (l : list (Z * nat)) : list (Z * nat) :=
  match l with
  | [] => [x]
  | y :: l' =>
      if (x.2 <? y.2)%nat then y :: insert_by_count x l'
      else x :: y :: l'
  end.

Fixpoint sorted_by_count (l : list (Z * nat)) : list (Z * nat) :=
  match l with
  | [] => []
  | x :: l' => insert_by_count x (sorted_by_count l')
  end.

Definition most_common (n : nat) (c : list (Z * nat)) : list (Z * nat) :=
  take n (sorted_by_count c).

End Py.

(** ** Data model: what [pretty_midi] hands to the extractor *)

Record Note : Type := {
  pitch : Z;
  start : Q;
  end_ : Q
}.

Record Instrument : Type := {
  is_drum : bool;
  notes : list Note
}.

Record PrettyMIDI : Type := {
  instruments : list Instrument
}.

(** ** The extractor *)

Module ChordExtractor.

Definition note_names : list string :=
  ["C"; "C#"; "D"; "D#"; "E"; "F"; "F#"; "G"; "G#"; "A"; "A#"; "B"].

Definition chord_patterns_entries : list (gset Z * string) :=
  let frozenset := Py.frozenset in
  [ (* Major triads *)
    (frozenset [0; 4; 7], "C"); (frozenset [1; 5; 8], "C#"); (frozenset [2; 6; 9], "D");
    (frozenset [3; 7; 10], "D#"); (frozenset [4; 8; 11], "E"); (frozenset [5; 9; 0], "F");
    (frozenset [6; 10; 1], "F#"); (frozenset [7; 11; 2], "G"); (frozenset [8; 0; 3], "G#");
    (frozenset [9; 1; 4], "A"); (frozenset [10; 2; 5], "A#"); (frozenset [11; 3; 6], "B");
    (* Minor triads *)
    (frozenset [0; 3; 7], "Cm"); (frozenset [1; 4; 8], "C#m"); (frozenset [2; 5; 9], "Dm");
    (frozenset [3; 6; 10], "D#m"); (frozenset [4; 7; 11], "Em"); (frozenset [5; 8; 0], "Fm");
    (frozenset [6; 9; 1], "F#m"); (frozenset [7; 10; 2], "Gm"); (frozenset [8; 11; 3], "G#m");
    (frozenset [9; 0; 4], "Am"); (frozenset [10; 1; 5], "A#m"); (frozenset [11; 2; 6], "Bm");
    (* Major 7th chords *)
    (frozenset [0; 4; 7; 11], "Cmaj7"); (frozenset [1; 5; 8; 0], "C#maj7"); (frozenset [2; 6; 9; 1], "Dmaj7");
    (frozenset [3; 7; 10; 2], "D#maj7"); (frozenset [4; 8; 11; 3], "Emaj7"); (frozenset [5; 9; 0; 4], "Fmaj7");
    (frozenset [6; 10; 1; 5], "F#maj7"); (frozenset [7; 11; 2; 6], "Gmaj7"); (frozenset [8; 0; 3; 7], "G#maj7");
    (frozenset [9; 1; 4; 8], "Amaj7"); (frozenset [10; 2; 5; 9], "A#maj7"); (frozenset [11; 3; 6; 10], "Bmaj7");
    (* Dominant 7th chords *)
    (frozenset [0; 4; 7; 10], "C7"); (frozenset [1; 5; 8; 11], "C#7"); (frozenset [2; 6; 9; 0], "D7");
    (frozenset [3; 7; 10; 1], "D#7"); (frozenset [4; 8; 11; 2], "E7"); (frozenset [5; 9; 0; 3], "F7");
    (frozenset [6; 10; 1; 4], "F#7"); (frozenset [7; 11; 2; 5], "G7"); (frozenset [8; 0; 3; 6], "G#7");
    (frozenset [9; 1; 4; 7], "A7"); (frozenset [10; 2; 5; 8], "A#7"); (frozenset [11; 3; 6; 9], "B7") ].

Definition chord_patterns : gmap (gset Z) string :=
  Py.dict chord_patterns_entries.

(** *** [pitches_to_chord_name] *)

(** The loop [for chord_size in [4, 3]], leaving at the first template hit;
    [None] when the loop runs to its end. *)
Fixpoint try_chord_sizes (sizes : list nat) (pitches : list Z) : option string :=
  match sizes with
  | [] => None
  | chord_size :: sizes' =>
      if (chord_size <=? length pitches)%nat then
        let pitch_set := Py.frozenset (take chord_size pitches) in
        match chord_patterns !! pitch_set with
        | Some name => Some name
        | None => try_chord_sizes sizes' pitches
        end
      else try_chord_sizes sizes' pitches
  end.

Definition pitches_to_chord_name (pitches : list Z) : outcome (option string) :=
  match pitches with
  | [] => Done None
  | p0 :: _ =>
      match try_chord_sizes [4%nat; 3%nat] pitches with
      | Some name => Done (Some name)
      | None => name ← Py.getitem note_names p0; Done (Some name)
      end
  end.

(** *** [midi_to_chords] *)

(** Lines 51-54: the notes of every non-drum instrument, in order. *)
Definition gather_notes (midi_data : PrettyMIDI) : list Note :=
  foldl (fun all_notes instrument =>
           if negb (is_drum instrument) then all_notes ++ notes instrument
           else all_notes)
        [] (instruments midi_data).

(** Lines 75-76: the test that lets a note into the window. *)
Definition note_in_window (current_time window_size : Q) (note : Note) : bool :=
  (Qle_bool (start note) current_time && Py.Qlt_bool current_time (end_ note))
  || (Qle_bool current_time (start note)
      && Py.Qlt_bool (start note) (current_time + window_size)).

(** Lines 72-77: the inner [for] loop with its [append]. *)
Definition collect_window_notes (current_time window_size : Q)
    (all_notes : list Note) : list Z :=
  foldl (fun window_notes note =>
           if note_in_window current_time window_size note
           then window_notes ++ [pitch note mod 12]
           else window_notes)
        [] all_notes.

(** The variables the [while] loop updates. *)
Record loop_state : Type := {
  current_time : Q;
  chords : list string
}.

(** Line 87, right operand: [not chords or chord_name != chords[-1]]. *)
Definition differs_from_last (chord_name : string) (chords : list string) : bool :=
  match last chords with
  | None => true
  | Some prev => negb (String.eqb chord_name prev)
  end.

(** Lines 86-88.  A chord name is falsy when it is [None] or the empty
    string. *)
Definition append_chord (chord_name : option string) (chords : list string)
    : list string :=
  match chord_name with
  | None => chords
  | Some name =>
      if negb (String.eqb name "") && differs_from_last name chords
      then chords ++ [name]
      else chords
  end.

(** Lines 79-88: what one window adds to [chords]. *)
Definition window_chords (window_notes : list Z) (chords : list string)
    : outcome (list string) :=
  if (3 <=? length window_notes)%nat then
    let pitch_counts := Py.Counter window_notes in
    let chord_pitches := (Py.most_common 6 pitch_counts).*1 in
    match chord_pitches with
    | [] => Done chords
    | _ :: _ =>
        chord_name ← pitches_to_chord_name chord_pitches;
        Done (append_chord chord_name chords)
    end
  else Done chords.

(** Lines 71-90: the body of the [while] loop. *)
Definition window_step (all_notes : list Note) (window_size : Q)
    (st : loop_state) : outcome loop_state :=
  let window_notes := collect_window_notes (current_time st) window_size all_notes in
  chords' ← window_chords window_notes (chords st);
  Done {| current_time := current_time st + window_size; chords := chords' |}.

(** Line 70: [while current_time < song_length]. *)
Fixpoint while_loop (fuel : nat) (all_notes : list Note)
    (song_length window_size : Q) (st : loop_state) : outcome loop_state :=
  match fuel with
  | O => OutOfFuel
  | S fuel' =>
      if Py.Qlt_bool (current_time st) song_length then
        st' ← window_step all_notes window_size st;
        while_loop fuel' all_notes song_length window_size st'
      else Done st
  end.

(** Line 64. *)
Definition num_windows_of (song_length : Q) : Z :=
  Z.max 8 (Z.min 16 (Py.int (song_length / 2))).

(** Line 65. *)
Definition window_size_of (song_length : Q) : Q :=
  (song_length / inject_Z (num_windows_of song_length))%Q.

(** Lines 67-68. *)
Definition initial_state : loop_state :=
  {| current_time := 0; chords := [] |}.

(** Lines 60-90 on a non-empty [all_notes]: sort, choose the windows, run
    the loop; the result is the list [chords]. *)
Definition windowed_chords (fuel : nat) (all_notes : list Note)
    : outcome (list string) :=
  let all_notes := Py.sorted_by start all_notes in
  song_length ← Py.max (end_ <$> all_notes);
  let window_size := window_size_of song_length in
  st ← while_loop fuel all_notes song_length window_size initial_state;
  Done (chords st).

(** Lines 93-98: the loop that keeps the first occurrence of each chord and
    leaves as soon as 8 are kept. *)
Fixpoint unique_loop (chords unique_chords : list string) : list string :=
  match chords with
  | [] => unique_chords
  | chord :: chords' =>
      let unique_chords :=
        if bool_decide (chord ∈ unique_chords) then unique_chords
        else unique_chords ++ [chord] in
      if (8 <=? length unique_chords)%nat then unique_chords
      else unique_loop chords' unique_chords
  end.

(** Line 100. *)
Definition join_or_none (unique_chords : list string) : option string :=
  match unique_chords with
  | [] => None
  | _ :: _ => Some (String.concat " - " unique_chords)
  end.

(** Lines 60-98 on a non-empty [all_notes]: the list [unique_chords]. *)
Definition unique_chords_of (fuel : nat) (all_notes : list Note)
    : outcome (list string) :=
  chords ← windowed_chords fuel all_notes;
  Done (unique_loop chords []).

(** The body of the [try] block, from the parsed file on. *)
Definition midi_to_chords_try (fuel : nat) (midi_data : PrettyMIDI)
    : outcome (option string) :=
  let all_notes := gather_notes midi_data in
  match all_notes with
  | [] => Done None
  | _ :: _ =>
      unique_chords ← unique_chords_of fuel all_notes;
      Done (join_or_none unique_chords)
  end.

(** [except Exception: ... return None]. *)
Definition midi_to_chords (fuel : nat) (midi_data : PrettyMIDI)
    : outcome (option string) :=
  match midi_to_chords_try fuel midi_data with
  | Raised _ => Done None
  | r => r
  end.

End ChordExtractor.

Import ChordExtractor.

(** ** The specification's words

    Definitions written from the specification, to be compared with the
    code. *)

(** The root-name table of the specification. *)
Definition root_label (p : Z) : string :=
  nth (Z.to_nat p) ["C"; "C#"; "D"; "D#"; "E"; "F"; "F#"; "G"; "G#"; "A"; "A#"; "B"] "".

(** The rule in the words of the specification: the template of the first
    four elements, else the template of the first three, else the root label
    of the first element. *)
Definition resolve_spec (P : list Z) : string :=
  match chord_patterns !! Py.frozenset (take 4 P) with
  | Some name => name
  | None =>
      match chord_patterns !! Py.frozenset (take 3 P) with
      | Some name => name
      | None => root_label (hd 0 P)
      end
  end.

Definition pitch_class (n : Note) : Z := pitch n mod 12.

(** The window test in the words of the specification: the note sounds at
    the instant [t], or it starts within [[t, t + S)]. *)
Definition qualifies (t S : Q) (n : Note) : Prop :=
  ((start n <= t)%Q ∧ (t < end_ n)%Q)
  ∨ ((t <= start n)%Q ∧ (start n < t + S)%Q).

(** [clamp] in the words of the specification. *)
Definition clamp (x lo hi : Z) : Z :=
  if x <? lo then lo else if hi <? x then hi else x.

(** A note as the data model has it: [0 <= start < end]. *)
Definition well_formed (n : Note) : Prop :=
  (0 <= start n)%Q ∧ (start n < end_ n)%Q.

(** No two neighbours of [l] are equal. *)
Definition no_adjacent_repeat (l : list string) : Prop :=
  ∀ (i : nat) (x y : string), l !! i = Some x → l !! S i = Some y → x ≠ y.

(** The call returns the chord sequence [l], joined with [" - "]. *)
Definition returns_sequence (r : outcome (option string)) (l : list string) : Prop :=
  r = Done (Some (String.concat " - " l)).

(** Two notes with the same times and the same pitch class (the octave may
    differ). *)
Definition same_class (n n' : Note) : Prop :=
  start n = start n' ∧ end_ n = end_ n' ∧ pitch n mod 12 = pitch n' mod 12.

(** ** The loop, window by window *)

(** [n] runs of the loop body, without the guard. *)
Fixpoint run_windows (n : nat) (all_notes : list Note) (ws : Q)
    (st : loop_state) : outcome loop_state :=
  match n with
  | O => Done st
  | S n' =>
      st' ← window_step all_notes ws st;
      run_windows n' all_notes ws st'
  end.

Definition nQ (n : nat) : Q := inject_Z (Z.of_nat n).

(** How often the loop body runs in exact arithmetic. *)
Definition iterations (T : Q) : nat :=
  if Py.Qlt_bool 0 T then Z.to_nat (num_windows_of T) else 0%nat.

(** The notes window [i] collects in exact arithmetic, for a song of length
    [T]. *)
Definition window_notes_at (all_notes : list Note) (T : Q) (i : nat) : list Z :=
  collect_window_notes (nQ i * window_size_of T) (window_size_of T)
    (Py.sorted_by start all_notes).

(** No window of the loop over exact arithmetic collects three or more
    pitch-class instances. *)
Definition no_window_collects_three (all_notes : list Note) : Prop :=
  ∀ T : Q,
    Py.max (end_ <$> Py.sorted_by start all_notes) = Done T →
    ∀ i : nat, (i < iterations T)%nat →
      (length (window_notes_at all_notes T i) < 3)%nat.

(** ** Recordings *)

Definition note (p : Z) (s e : Q) : Note :=
  {| pitch := p; start := s; end_ := e |}.

Definition one_track (ns : list Note) : PrettyMIDI :=
  {| instruments := [ {| is_drum := false; notes := ns |} ] |}.

(** One second of a triad starting at second [t]. *)
Definition triad (p1 p2 p3 : Z) (t : Z) : list Note :=
  [ note p1 (inject_Z t) (inject_Z (t + 1));
    note p2 (inject_Z t) (inject_Z (t + 1));
    note p3 (inject_Z t) (inject_Z (t + 1)) ].

(** Eight seconds alternating between C major and G major. *)
Definition alternating_C_G : PrettyMIDI :=
  one_track (triad 60 64 67 0 ++ triad 67 71 74 1 ++ triad 60 64 67 2 ++ triad 67 71 74 3
             ++ triad 60 64 67 4 ++ triad 67 71 74 5 ++ triad 60 64 67 6 ++ triad 67 71 74 7).

(** The alternating recording, one octave higher. *)
Definition alternating_C_G_high : list Note :=
  triad 72 76 79 0 ++ triad 79 83 86 1 ++ triad 72 76 79 2 ++ triad 79 83 86 3
  ++ triad 72 76 79 4 ++ triad 79 83 86 5 ++ triad 72 76 79 6 ++ triad 79 83 86 7.

(** A sustained C major triad of four seconds. *)
Definition C_triad_4s : list Note := [ note 60 0 4; note 64 0 4; note 67 0 4 ].

Definition sustained_C : PrettyMIDI := one_track C_triad_4s.

(** Three notes of length zero at time 0, which the data model excludes. *)
Definition zero_length_triad : list Note := [ note 60 0 0; note 64 0 0; note 67 0 0 ].

(** Two notes only: no window can collect three. *)
Definition two_notes : PrettyMIDI := one_track [ note 60 0 4; note 64 0 4 ].

Definition no_tracks : PrettyMIDI := {| instruments := [] |}.

Definition drums_only : PrettyMIDI :=
  {| instruments := [ {| is_drum := true; notes := C_triad_4s |} ] |}.

(** ** Further definitions used to state properties *)

(** The chord names the extractor can produce: a root name followed by
    nothing, [m], [maj7] or [7]. *)
Definition chord_vocabulary : list string :=
  root ← note_names; suffix ← [""; "m"; "maj7"; "7"]; [root +:+ suffix].

(** The distinct elements of [l] in the order of their first occurrence,
    behind the elements already [seen]. *)
Fixpoint first_occurrences (seen l : list string) : list string :=
  match l with
  | [] => seen
  | x :: l' =>
      first_occurrences (if bool_decide (x ∈ seen) then seen else seen ++ [x]) l'
  end.

(** ** Python string methods

    A character is a code point below 256. *)

Module PyStr.

(** [c.isspace()]: the code points 9-13, 28-32, 133 and 160. *)
Definition isspace (c : ascii) : bool :=
  let n := N_of_ascii c in
  (((9 <=? n) && (n <=? 13)) || ((28 <=? n) && (n <=? 32))
   || (n =? 133) || (n =? 160))%N.

Fixpoint lstrip (s : string) : string :=
  match s with
  | EmptyString => EmptyString
  | String c s' => if isspace c then lstrip s' else s
  end.

Fixpoint rstrip (s : string) : string :=
  match s with
  | EmptyString => EmptyString
  | String c s' =>
      match rstrip s' with
      | EmptyString => if isspace c then EmptyString else String c EmptyString
      | r => String c r
      end
  end.

(** [s.strip()]. *)
Definition strip (s : string) : string := lstrip (rstrip s).

(** Puts [c] in front of the first field. *)
Definition cons_char (c : ascii) (fields : list string) : list string :=
  match fields with
  | [] => [String c EmptyString]
  | f :: fs => String c f :: fs
  end.

(** [s.split(sep)] for a separator of one character. *)
Fixpoint split_char (sep : ascii) (s : string) : list string :=
  match s with
  | EmptyString => [EmptyString]
  | String c s' =>
      if Ascii.eqb c sep then EmptyString :: split_char sep s'
      else cons_char c (split_char sep s')
  end.

(** [s.split(' - ')]: cut at every occurrence of the three characters,
    leftmost first. *)
Fixpoint split_dash (s : string) : list string :=
  match s with
  | EmptyString => [EmptyString]
  | String c s' =>
      match s' with
      | String c2 (String c3 rest) =>
          if Ascii.eqb c " " && Ascii.eqb c2 "-" && Ascii.eqb c3 " "
          then EmptyString :: split_dash rest
          else cons_char c (split_dash s')
      | _ => cons_char c (split_dash s')
      end
  end.

End PyStr.

(** [tablature_generator.py], line 146:
    [[chord.strip() for chord in chord_progression.split(' - ')]]. *)
Definition progression_chords (chord_progression : string) : list string :=
  PyStr.strip <$> PyStr.split_dash chord_progression.

(** ** [parse_lab_file] and [load_mcgill_annotations] *)

Module McGill.

(** The tab character. *)
Definition TAB : ascii := "009"%char.

(** Lines 309-316: what one line of the file does to [chords].  The index 2
    is in range under the guard [len(parts) >= 3]. *)
Definition lab_step (chords : list string) (line : string) : list string :=
  let line := PyStr.strip line in
  if negb (String.eqb line "") then
    let parts := PyStr.split_char TAB line in
    if (3 <=? length parts)%nat then
      let chord_label := PyStr.strip (nth 2 parts "") in
      if negb (String.eqb chord_label "N") && negb (bool_decide (chord_label ∈ chords))
      then chords ++ [chord_label]
      else chords
    else chords
  else chords.

(** Lines 306-318, on the lines of the opened file. *)
Definition parse_lab_lines (lines : list string) : option string :=
  let chords := foldl lab_step [] lines in
  match chords with
  | [] => None
  | _ :: _ => Some (String.concat " - " (take 8 chords))
  end.

(** [parse_lab_file]: [None] stands for a file that cannot be opened or
    decoded, which the [except] branch turns into [None]. *)
Definition parse_lab_file (file : option (list string)) : option string :=
  match file with
  | None => None
  | Some lines => parse_lab_lines lines
  end.

(** One name in the annotations directory: whether it is a directory, and
    its [majmin.lab] if that file exists. *)
Record lab_folder : Type := {
  folder_name : string;
  folder_is_dir : bool;
  majmin_lab : option (option (list string))
}.

(** Lines 291-298: what one directory entry does to [chord_data]. *)
Definition load_step (chord_data : gmap string string) (e : lab_folder)
    : gmap string string :=
  if folder_is_dir e then
    match majmin_lab e with
    | Some file =>
        match parse_lab_file file with
        | Some chords =>
            if negb (String.eqb chords "") then <[folder_name e := chords]> chord_data
            else chord_data
        | None => chord_data
        end
    | None => chord_data
    end
  else chord_data.

(** [load_mcgill_annotations]: [None] stands for a missing annotations
    directory, otherwise the listing of the directory. *)
Definition load_mcgill_annotations (listing : option (list lab_folder))
    : gmap string string :=
  match listing with
  | None => ∅
  | Some entries => foldl load_step ∅ entries
  end.

End McGill.

(** A line of a [.lab] file: the fields joined by tabs, and a newline. *)
Definition lab_line (fields : list string) : string :=
  String.concat (String McGill.TAB "") fields +:+ String "010" "".

(** The chord label a line of a [.lab] file carries, if any. *)
Definition lab_label (line : string) : option string :=
  let line := PyStr.strip line in
  if String.eqb line "" then None
  else
    let parts := PyStr.split_char McGill.TAB line in
    if (3 <=? length parts)%nat then Some (PyStr.strip (nth 2 parts "")) else None.

(** The labels of a file, in order, without the no-chord label [N]. *)
Definition lab_labels (lines : list string) : list string :=
  List.filter (fun label => negb (String.eqb label "N")) (omap lab_label lines).

(** ** [process_all_midis] *)

(** A value in a column of the database. *)
Inductive sql_value : Type :=
  | SqlNull
  | SqlInt (z : Z)
  | SqlText (s : string).

(** A row of [SELECT id, title, artist, year, position FROM bimmuda_songs];
    [id] is the integer primary key. *)
Record song_row : Type := {
  song_id : Z;
  song_title : sql_value;
  song_artist : sql_value;
  song_year : sql_value;
  song_position : sql_value
}.

(** A value of the dictionary [chord_results] (lines 262-268). *)
Record chord_result : Type := {
  res_title : sql_value;
  res_artist : sql_value;
  res_year : sql_value;
  res_chords : string;
  res_midi_file : string
}.

Module Process.

(** [l[:k]]. *)
Definition slice_to {A : Type} (l : list A) (k : Z) : list A :=
  if k <? 0 then take (Z.to_nat (Z.of_nat (length l) + k)) l
  else take (Z.to_nat k) l.

(** The method [midi_to_chords] on a path: line 48 parses the file, and a
    parser error ends in the [except] branch.  [None] stands for a file the
    parser rejects. *)
Definition midi_to_chords_path (fuel : nat) (parsed : option PrettyMIDI)
    : option string :=
  match parsed with
  | None => None
  | Some midi_data =>
      match midi_to_chords fuel midi_data with
      | Done r => r
      | Raised _ | OutOfFuel => None
      end
  end.

Section Run.

(** What the two methods called in the loop return on each path. *)
Variable midi_to_chords_of : string → option string.
Variable match_midi_to_songs : string → option song_row.

(** Lines 250-274: the body of the loop over the files. *)
Definition step (chord_results : gmap Z chord_result) (midi_file : string)
    : gmap Z chord_result :=
  match midi_to_chords_of midi_file with
  | Some chords =>
      if negb (String.eqb chords "") then
        match match_midi_to_songs midi_file with
        | Some song_match =>
            <[song_id song_match :=
                {| res_title := song_title song_match;
                   res_artist := song_artist song_match;
                   res_year := song_year song_match;
                   res_chords := chords;
                   res_midi_file := midi_file |}]> chord_results
        | None => chord_results
        end
      else chord_results
  | None => chord_results
  end.

(** The files the loop runs over (lines 235-243): [None] when the method
    returns early. *)
Definition files_to_process (midi_files : list string) (limit : option Z)
    : option (list string) :=
  match midi_files with
  | [] => None
  | _ :: _ =>
      match limit with
      | None => Some midi_files
      | Some k => if k =? 0 then Some midi_files else Some (slice_to midi_files k)
      end
  end.

(** [process_all_midis], on the list [find_all_midi_files] returned. *)
Definition process_all_midis (midi_files : list string) (limit : option Z)
    : gmap Z chord_result :=
  match files_to_process midi_files limit with
  | None => ∅
  | Some files => foldl step ∅ files
  end.

End Run.

End Process.

(** The entry written for [midi_file] when it has chords and a match. *)
Definition result_for (midi_file chords : string) (row : song_row) : chord_result :=
  {| res_title := song_title row; res_artist := song_artist row;
     res_year := song_year row; res_chords := chords; res_midi_file := midi_file |}.

(** A row used in examples. *)
Definition hey_jude_row : song_row :=
  {| song_id := 7; song_title := SqlText "Hey Jude";
     song_artist := SqlText "The Beatles"; song_year := SqlInt 1968;
     song_position := SqlInt 1 |}.

(** ** [update_database_with_chords]

    The table [bimmuda_songs], keyed by its integer primary key [id].  Only
    the failures the method itself provides for are modelled: the missing
    table and the column that exists already. *)

Module Database.

Record table_row : Type := {
  row_title : sql_value;
  row_artist : sql_value;
  row_year : sql_value;
  row_position : sql_value;
  (** Read only when the table has the column. *)
  row_chord_progression : sql_value
}.

Record songs_table : Type := {
  has_chord_column : bool;
  rows : gmap Z table_row
}.

(** The database: [None] when it has no table [bimmuda_songs]. *)
Definition database : Type := option songs_table.

Inductive db_outcome (A : Type) : Type :=
  | DbDone (a : A)
  | OperationalError.

Arguments DbDone {A} a.
Arguments OperationalError {A}.

Definition set_chord_progression (v : sql_value) (r : table_row) : table_row :=
  {| row_title := row_title r; row_artist := row_artist r; row_year := row_year r;
     row_position := row_position r; row_chord_progression := v |}.

(** [ALTER TABLE bimmuda_songs ADD COLUMN chord_progression TEXT]: fails
    without the table and when the column exists; the new column is [NULL]
    in every row. *)
Definition add_chord_column (db : database) : db_outcome database :=
  match db with
  | None => OperationalError
  | Some t =>
      if has_chord_column t then OperationalError
      else DbDone (Some {| has_chord_column := true;
                           rows := set_chord_progression SqlNull <$> rows t |})
  end.

(** [UPDATE bimmuda_songs SET chord_progression = ? WHERE id = ?]. *)
Definition update_chord_progression (db : database) (chords : string) (id : Z)
    : db_outcome database :=
  match db with
  | None => OperationalError
  | Some t =>
      if has_chord_column t then
        DbDone (Some {| has_chord_column := true;
                        rows := alter (set_chord_progression (SqlText chords)) id (rows t) |})
      else OperationalError
  end.

(** Lines 331-337: the [try] around the [ALTER TABLE]. *)
Definition ensure_chord_column (db : database) : database :=
  match add_chord_column db with
  | DbDone db' => db'
  | OperationalError => db
  end.

(** Lines 340-347: the loop over [midi_chord_results.items()], with the
    counter [midi_updates]. *)
Fixpoint update_loop (items : list (Z * chord_result)) (db : database)
    (midi_updates : Z) : db_outcome (database * Z) :=
  match items with
  | [] => DbDone (db, midi_updates)
  | (song_id, song_data) :: items' =>
      match update_chord_progression db (res_chords song_data) song_id with
      | DbDone db' => update_loop items' db' (midi_updates + 1)
      | OperationalError => OperationalError
      end
  end.

(** [update_database_with_chords]: the database after the commit and the
    number returned, or the error that escapes.  The loop over the McGill
    data (lines 350-355) only passes, and [mcgill_updates] stays 0. *)
Definition update_database_with_chords (db : database)
    (midi_chord_results : gmap Z chord_result)
    (mcgill_chord_data : gmap string string) : db_outcome (database * Z) :=
  let db := ensure_chord_column db in
  match update_loop (map_to_list midi_chord_results) db 0 with
  | DbDone (db', midi_updates) =>
      let mcgill_updates := 0 in
      DbDone (db', midi_updates + mcgill_updates)
  | OperationalError => OperationalError
  end.

End Database.

(** The value of the column [chord_progression] the method leaves in a row:
    the chords of the result stored under the row's id, else the value the
    row had, [NULL] when the column is new. *)
Definition expected_chord_progression (t : Database.songs_table)
    (midi_chord_results : gmap Z chord_result) (id : Z) (r : Database.table_row)
    : sql_value :=
  match midi_chord_results !! id with
  | Some song_data => SqlText (res_chords song_data)
  | None =>
      if Database.has_chord_column t then Database.row_chord_progression r
      else SqlNull
  end.

(** A table used in examples: one song, no chord column yet. *)
Definition one_song_table : Database.songs_table :=
  {| Database.has_chord_column := false;
     Database.rows :=
       {[ 7 := {| Database.row_title := SqlText "Hey Jude";
                  Database.row_artist := SqlText "The Beatles";
                  Database.row_year := SqlInt 1968;
                  Database.row_position := SqlInt 1;
                  Database.row_chord_progression := SqlNull |} ]} |}.

(** The same table after the chords ["C - G"] were written to the song. *)
Definition one_song_table_with_chords : Database.songs_table :=
  {| Database.has_chord_column := true;
     Database.rows :=
       {[ 7 := {| Database.row_title := SqlText "Hey Jude";
                  Database.row_artist := SqlText "The Beatles";
                  Database.row_year := SqlInt 1968;
                  Database.row_position := SqlInt 1;
                  Database.row_chord_progression := SqlText "C - G" |} ]} |}.

(** ** The program over the machine's arithmetic

    Note times are binary floating-point numbers in the source, and sums and
    quotients of them are rounded.  [Machine] is lines 45-104 again, with the
    arithmetic of the times left open: nothing is assumed of its operations,
    so what is proved of [Machine] holds of the rounded arithmetic the source
    runs on ([binary64]) as of the exact one ([exact]).  The parts that do
    not touch times ([window_chords], [unique_loop], [join_or_none]) are the
    ones above. *)

Module Machine.

Record arithmetic : Type := {
  time : Type;
  (** An [int] where a [float] is expected: [0], [2], [num_windows]. *)
  of_int : Z → time;
  add : time → time → time;
  div : time → time → time;
  (** [int(x)]; [None] where it raises (not a number, infinite). *)
  to_int : time → option Z;
  ltb : time → time → bool;
  leb : time → time → bool
}.

Section Program.

Variable A : arithmetic.

Record Note : Type := {
  pitch : Z;
  start : time A;
  end_ : time A
}.

Record Instrument : Type := {
  is_drum : bool;
  notes : list Note
}.

Record PrettyMIDI : Type := {
  instruments : list Instrument
}.

(** Lines 51-54. *)
Definition gather_notes (midi_data : PrettyMIDI) : list Note :=
  foldl (fun all_notes instrument =>
           if negb (is_drum instrument) then all_notes ++ notes instrument
           else all_notes)
        [] (instruments midi_data).

(** Line 60: the stable sort by [start], as an insertion sort.  (On times
    that [<] orders, every stable sort returns this list.) *)
Fixpoint insert_by_start (x : Note) (l : list Note) : list Note :=
  match l with
  | [] => [x]
  | y :: l' =>
      if ltb A (start y) (start x) then y :: insert_by_start x l'
      else x :: y :: l'
  end.

Fixpoint sorted_by_start (l : list Note) : list Note :=
  match l with
  | [] => []
  | x :: l' => insert_by_start x (sorted_by_start l')
  end.

(** Line 63: [max(note.end for note in all_notes)]. *)
Definition song_length_of (all_notes : list Note) : outcome (time A) :=
  match all_notes with
  | [] => Raised ValueError
  | x :: rest =>
      Done (foldl (fun m y => if ltb A m y then y else m) (end_ x) (end_ <$> rest))
  end.

(** Line 64.  [int] of a time that is not finite raises, and the [except]
    branch of [midi_to_chords] catches whatever is raised. *)
Definition num_windows_of (song_length : time A) : outcome Z :=
  match to_int A (div A song_length (of_int A 2)) with
  | Some half => Done (Z.max 8 (Z.min 16 half))
  | None => Raised ValueError
  end.

(** Lines 63-65: [song_length] and [window_size]. *)
Definition window_plan (all_notes : list Note) : outcome (time A * time A) :=
  song_length ← song_length_of all_notes;
  num_windows ← num_windows_of song_length;
  Done (song_length, div A song_length (of_int A num_windows)).

(** Lines 75-76. *)
Definition note_in_window (current_time window_size : time A) (note : Note) : bool :=
  (leb A (start note) current_time && ltb A current_time (end_ note))
  || (leb A current_time (start note)
      && ltb A (start note) (add A current_time window_size)).

(** Lines 72-77. *)
Definition collect_window_notes (current_time window_size : time A)
    (all_notes : list Note) : list Z :=
  foldl (fun window_notes note =>
           if note_in_window current_time window_size note
           then window_notes ++ [pitch note mod 12]
           else window_notes)
        [] all_notes.

Record loop_state : Type := {
  current_time : time A;
  chords : list string
}.

(** Lines 71-90. *)
Definition window_step (all_notes : list Note) (window_size : time A)
    (st : loop_state) : outcome loop_state :=
  let window_notes := collect_window_notes (current_time st) window_size all_notes in
  chords' ← ChordExtractor.window_chords window_notes (chords st);
  Done {| current_time := add A (current_time st) window_size; chords := chords' |}.

(** Line 70. *)
Fixpoint while_loop (fuel : nat) (all_notes : list Note)
    (song_length window_size : time A) (st : loop_state) : outcome loop_state :=
  match fuel with
  | O => OutOfFuel
  | S fuel' =>
      if ltb A (current_time st) song_length then
        st' ← window_step all_notes window_size st;
        while_loop fuel' all_notes song_length window_size st'
      else Done st
  end.

(** Lines 67-68. *)
Definition initial_state : loop_state :=
  {| current_time := of_int A 0; chords := [] |}.

(** Lines 60-90 on a non-empty [all_notes]. *)
Definition windowed_chords (fuel : nat) (all_notes : list Note)
    : outcome (list string) :=
  let all_notes := sorted_by_start all_notes in
  plan ← window_plan all_notes;
  st ← while_loop fuel all_notes plan.1 plan.2 initial_state;
  Done (chords st).

(** Lines 60-98. *)
Definition unique_chords_of (fuel : nat) (all_notes : list Note)
    : outcome (list string) :=
  chords ← windowed_chords fuel all_notes;
  Done (ChordExtractor.unique_loop chords []).

Definition midi_to_chords_try (fuel : nat) (midi_data : PrettyMIDI)
    : outcome (option string) :=
  let all_notes := gather_notes midi_data in
  match all_notes with
  | [] => Done None
  | _ :: _ =>
      unique_chords ← unique_chords_of fuel all_notes;
      Done (ChordExtractor.join_or_none unique_chords)
  end.

Definition midi_to_chords (fuel : nat) (midi_data : PrettyMIDI)
    : outcome (option string) :=
  match midi_to_chords_try fuel midi_data with
  | Raised _ => Done None
  | r => r
  end.

(** The start of window [i]: [current_time] after [i] runs of line 90. *)
Fixpoint window_start (window_size : time A) (i : nat) : time A :=
  match i with
  | O => of_int A 0
  | S i' => add A (window_start window_size i') window_size
  end.

(** The loop runs its body exactly [n] times: the guard of line 70 holds at
    the starts of the windows [0 .. n-1] and fails at the next start. *)
Definition loop_runs (song_length window_size : time A) (n : nat) : Prop :=
  (∀ i : nat, (i < n)%nat → ltb A (window_start window_size i) song_length = true)
  ∧ ltb A (window_start window_size n) song_length = false.

(** The window test in the words of the specification, with the order and
    the sum of the arithmetic. *)
Definition qualifies (t S : time A) (n : Note) : Prop :=
  (leb A (start n) t = true ∧ ltb A t (end_ n) = true)
  ∨ (leb A t (start n) = true ∧ ltb A (start n) (add A t S) = true).

End Program.

(** Exact rational arithmetic. *)
Definition exact : arithmetic :=
  {| time := Q; of_int := inject_Z; add := Qplus; div := Qdiv;
     to_int := fun x => Some (Py.int x);
     ltb := Py.Qlt_bool; leb := Qle_bool |}.

(** [int(x)] on a binary64 number: the integer part of [m * 2^e]. *)
Definition float_to_int (x : float) : option Z :=
  match Prim2SF x with
  | S754_zero _ => Some 0
  | S754_finite negative m e =>
      let magnitude :=
        if 0 <=? e then Z.shiftl (Zpos m) e else Z.shiftr (Zpos m) (- e) in
      Some (if negative then - magnitude else magnitude)
  | S754_infinity _ | S754_nan => None
  end.

(** The arithmetic the source runs on: IEEE 754 binary64, round to nearest
    even.  [of_int] is used at 0, 2 and 8..16 only. *)
Definition binary64 : arithmetic :=
  {| time := float;
     of_int := fun z => PrimFloat.of_uint63 (Uint63.of_Z z);
     add := PrimFloat.add; div := PrimFloat.div;
     to_int := float_to_int;
     ltb := PrimFloat.ltb; leb := PrimFloat.leb |}.

End Machine.

(** The rational number a finite binary64 number stands for. *)
Definition exact_value (x : float) : Q :=
  match Prim2SF x with
  | S754_finite negative m e =>
      let magnitude := (inject_Z (Zpos m) * Qpower (2 # 1) e)%Q in
      if negative then Qopp magnitude else magnitude
  | _ => 0%Q
  end.

(** A note of the exact model as a note of [Machine] over [exact]. *)
Definition exact_note (n : Note) : Machine.Note Machine.exact :=
  Machine.Build_Note Machine.exact (pitch n) (start n) (end_ n).

Definition exact_instrument (i : Instrument) : Machine.Instrument Machine.exact :=
  Machine.Build_Instrument Machine.exact (is_drum i) (exact_note <$> notes i).

Definition exact_midi (m : PrettyMIDI) : Machine.PrettyMIDI Machine.exact :=
  Machine.Build_PrettyMIDI Machine.exact (exact_instrument <$> instruments m).

(** A binary64 note; the times are quotients of integers, rounded once. *)
Definition float_note (p : Z) (s s_den e e_den : Z) : Machine.Note Machine.binary64 :=
  Machine.Build_Note Machine.binary64 p
    (PrimFloat.div (PrimFloat.of_uint63 (Uint63.of_Z s))
                   (PrimFloat.of_uint63 (Uint63.of_Z s_den)))
    (PrimFloat.div (PrimFloat.of_uint63 (Uint63.of_Z e))
                   (PrimFloat.of_uint63 (Uint63.of_Z e_den))).

Definition float_track (ns : list (Machine.Note Machine.binary64))
    : Machine.PrettyMIDI Machine.binary64 :=
  Machine.Build_PrettyMIDI Machine.binary64
    [Machine.Build_Instrument Machine.binary64 false ns].


(** * Properties *)

(** ** The code on the recordings *)

Example alternating_windowed :
  windowed_chords 17 (gather_notes alternating_C_G)
  = Done ["C"; "G"; "C"; "G"; "C"; "G"; "C"; "G"].
Proof. vm_compute. reflexivity. Qed.

Example alternating_result :
  midi_to_chords 17 alternating_C_G = Done (Some "C - G").
Proof. vm_compute. reflexivity. Qed.

Example sustained_result :
  midi_to_chords 17 sustained_C = Done (Some "C").
Proof. vm_compute. reflexivity. Qed.

Example resolve_C : pitches_to_chord_name [0; 4; 7] = Done (Some "C").
Proof. vm_compute. reflexivity. Qed.

Example resolve_Am : pitches_to_chord_name [4; 9; 0] = Done (Some "Am").
Proof. vm_compute. reflexivity. Qed.

Example resolve_Dmaj7 : pitches_to_chord_name [2; 6; 9; 1] = Done (Some "Dmaj7").
Proof. vm_compute. reflexivity. Qed.

Example resolve_F : pitches_to_chord_name [5] = Done (Some "F").
Proof. vm_compute. reflexivity. Qed.

Example resolve_out_of_range : pitches_to_chord_name [12] = Raised IndexError.
Proof. vm_compute. reflexivity. Qed.

Example resolve_negative_index : pitches_to_chord_name [-1] = Done (Some "B").
Proof. vm_compute. reflexivity. Qed.

Example chord_patterns_size : size chord_patterns = 48%nat.
Proof. vm_compute. reflexivity. Qed.

(** Equal counts keep the order of first occurrence. *)
Example most_common_ties :
  Py.most_common 6 (Py.Counter [4; 7; 0; 7; 2; 0]) = [(7, 2%nat); (0, 2%nat); (4, 1%nat); (2, 1%nat)].
Proof. reflexivity. Qed.

(** The sort is stable. *)
Example sorted_by_stable :
  pitch <$> Py.sorted_by start [note 1 2 3; note 2 1 3; note 3 2 3; note 4 1 3]
  = [2; 4; 1; 3].
Proof. reflexivity. Qed.

(** With a song length of 0 the loop body never runs. *)
Example zero_length_no_window :
  windowed_chords 17 zero_length_triad = Done []
  ∧ iterations 0 = 0%nat ∧ num_windows_of 0 = 8.
Proof. repeat split; vm_compute; reflexivity. Qed.

(** ** The chord-template table *)

Lemma dict_lookup_elem {V : Type} (entries : list (gset Z * V)) k v :
  Py.dict entries !! k = Some v → (k, v) ∈ entries.
Proof.
  unfold Py.dict.
  induction entries as [|[k' v'] entries IH] using rev_ind; simpl.
  - rewrite lookup_empty. discriminate.
  - rewrite foldl_snoc. simpl. destruct (decide (k' = k)) as [->|Hne].
    + rewrite lookup_insert_eq. intros [= ->].
      apply elem_of_app. right. apply list_elem_of_here.
    + rewrite lookup_insert_ne by done. intros Hk.
      apply elem_of_app. left. by apply IH.
Qed.

Lemma chord_patterns_key_size k name :
  chord_patterns !! k = Some name → (3 ≤ size k)%nat.
Proof.
  intros Hin%dict_lookup_elem.
  assert (Hall : forallb (fun kv : gset Z * string => (3 <=? size kv.1)%nat)
                   chord_patterns_entries = true) by (vm_compute; reflexivity).
  rewrite forallb_forall in Hall.
  apply list_elem_of_In, Hall in Hin. simpl in Hin. apply Nat.leb_le, Hin.
Qed.

Lemma size_frozenset_le (l : list Z) : (size (Py.frozenset l) ≤ length l)%nat.
Proof.
  unfold Py.frozenset. induction l as [|x l IH].
  - rewrite list_to_set_nil, size_empty. done.
  - rewrite list_to_set_cons, size_union_alt, size_singleton. cbn [length].
    assert (Hsub : (size (list_to_set l ∖ {[x]} : gset Z)
                    ≤ size (list_to_set l : gset Z))%nat)
      by (by apply subseteq_size, subseteq_difference_l).
    lia.
Qed.

Lemma chord_patterns_short (l : list Z) :
  (length l < 3)%nat → chord_patterns !! Py.frozenset l = None.
Proof.
  intros Hlen. destruct (chord_patterns !! Py.frozenset l) as [name|] eqn:E; [|done].
  apply chord_patterns_key_size in E. pose proof (size_frozenset_le l). lia.
Qed.

Ltac pitch_class_cases r H :=
  assert (r = 0 ∨ r = 1 ∨ r = 2 ∨ r = 3 ∨ r = 4 ∨ r = 5 ∨ r = 6
          ∨ r = 7 ∨ r = 8 ∨ r = 9 ∨ r = 10 ∨ r = 11) as H by lia;
  repeat (destruct H as [H | H]); subst r.

Lemma getitem_note_names (p : Z) :
  0 ≤ p < 12 → Py.getitem note_names p = Done (root_label p).
Proof. intros Hp. pitch_class_cases p H; reflexivity. Qed.

(** C9, as stated, fails: the table has 48 entries, not 96. *)
Lemma chord_patterns_not_96 : size chord_patterns ≠ 96%nat.
Proof. vm_compute. discriminate. Qed.

(** C9 (amended).  The table has 48 entries: for every root [r] in [0..11]
    the major triad maps to the root name, the minor triad to the root name
    followed by [m], the major seventh to the root name followed by [maj7],
    the dominant seventh to the root name followed by [7]; the root names are
    C, C#, D, D#, E, F, F#, G, G#, A, A#, B. *)
Theorem chord_patterns_table :
  size chord_patterns = 48%nat
  ∧ note_names = ["C"; "C#"; "D"; "D#"; "E"; "F"; "F#"; "G"; "G#"; "A"; "A#"; "B"]
  ∧ ∀ r : Z, 0 ≤ r < 12 →
      ∃ root : string,
        note_names !! Z.to_nat r = Some root
        ∧ chord_patterns !! ({[ r; (r + 4) mod 12; (r + 7) mod 12 ]} : gset Z)
          = Some root
        ∧ chord_patterns !! ({[ r; (r + 3) mod 12; (r + 7) mod 12 ]} : gset Z)
          = Some (root +:+ "m")
        ∧ chord_patterns
            !! ({[ r; (r + 4) mod 12; (r + 7) mod 12; (r + 11) mod 12 ]} : gset Z)
          = Some (root +:+ "maj7")
        ∧ chord_patterns
            !! ({[ r; (r + 4) mod 12; (r + 7) mod 12; (r + 10) mod 12 ]} : gset Z)
          = Some (root +:+ "7").
Proof.
  split; [vm_compute; reflexivity|]. split; [reflexivity|].
  intros r Hr.
  pitch_class_cases r H;
    (eexists; split; [reflexivity|]; repeat split; vm_compute; reflexivity).
Qed.

Lemma chord_patterns_table_witness :
  ∃ root : string,
    note_names !! Z.to_nat 9 = Some root
    ∧ chord_patterns !! ({[ 9; (9 + 4) mod 12; (9 + 7) mod 12 ]} : gset Z) = Some root
    ∧ chord_patterns !! ({[ 9; (9 + 3) mod 12; (9 + 7) mod 12 ]} : gset Z)
      = Some (root +:+ "m")
    ∧ chord_patterns
        !! ({[ 9; (9 + 4) mod 12; (9 + 7) mod 12; (9 + 11) mod 12 ]} : gset Z)
      = Some (root +:+ "maj7")
    ∧ chord_patterns
        !! ({[ 9; (9 + 4) mod 12; (9 + 7) mod 12; (9 + 10) mod 12 ]} : gset Z)
      = Some (root +:+ "7").
Proof. apply (proj2 (proj2 chord_patterns_table) 9). lia. Defined.

(** ** [pitches_to_chord_name] against the resolution rule *)

Lemma pitches_to_chord_name_resolve (P : list Z) :
  P ≠ [] → Forall (fun p => 0 ≤ p < 12) P →
  pitches_to_chord_name P = Done (Some (resolve_spec P)).
Proof.
  intros Hne Hrange. destruct P as [|p0 P']; [done|].
  assert (Hp0 : 0 ≤ p0 < 12) by (by inversion Hrange).
  unfold pitches_to_chord_name, resolve_spec.
  set (P := p0 :: P') in *. cbn [try_chord_sizes hd].
  destruct (4 <=? length P)%nat eqn:E4.
  - apply Nat.leb_le in E4.
    destruct (chord_patterns !! Py.frozenset (take 4 P)) as [n4|]; [done|].
    replace (3 <=? length P)%nat with true by (symmetry; apply Nat.leb_le; lia).
    destruct (chord_patterns !! Py.frozenset (take 3 P)) as [n3|]; [done|].
    subst P. cbn [hd]. by rewrite getitem_note_names.
  - apply Nat.leb_gt in E4. rewrite (take_ge P 4) by lia.
    destruct (3 <=? length P)%nat eqn:E3.
    + apply Nat.leb_le in E3. rewrite (take_ge P 3) by lia.
      destruct (chord_patterns !! Py.frozenset P) as [n3|]; [done|].
      subst P. cbn [hd]. by rewrite getitem_note_names.
    + apply Nat.leb_gt in E3. rewrite (take_ge P 3) by lia.
      rewrite chord_patterns_short by done.
      subst P. cbn [hd]. by rewrite getitem_note_names.
Qed.

(** C3.  On a non-empty sequence of pitch classes in [0..11],
    [pitches_to_chord_name] raises nothing and returns a string: the template
    of the set of the first four elements if there is one, else the template
    of the set of the first three, else the root label of the first element;
    [pitches_to_chord_name [5]] is ["F"]. *)
Theorem pitches_to_chord_name_never_raises :
  (∀ P : list Z, P ≠ [] → Forall (fun p => 0 ≤ p < 12) P →
     pitches_to_chord_name P = Done (Some (resolve_spec P)))
  ∧ pitches_to_chord_name [5] = Done (Some "F").
Proof. split; [apply pitches_to_chord_name_resolve | reflexivity]. Qed.

Lemma pitches_to_chord_name_never_raises_witness :
  pitches_to_chord_name [7; 11; 2; 5; 0] = Done (Some (resolve_spec [7; 11; 2; 5; 0])).
Proof.
  apply (proj1 pitches_to_chord_name_never_raises).
  - discriminate.
  - repeat constructor; lia.
Defined.

(** ** One window *)

Lemma Qlt_bool_iff (x y : Q) : Py.Qlt_bool x y = true ↔ (x < y)%Q.
Proof.
  unfold Py.Qlt_bool. rewrite negb_true_iff. split.
  - intros E. apply Qnot_le_lt. intros Hle%Qle_bool_iff. congruence.
  - intros Hlt. destruct (Qle_bool y x) eqn:E; [|done].
    apply Qle_bool_iff in E. destruct (Qlt_not_le _ _ Hlt E).
Qed.

Lemma Qlt_bool_false_iff (x y : Q) : Py.Qlt_bool x y = false ↔ (y <= x)%Q.
Proof.
  unfold Py.Qlt_bool. rewrite negb_false_iff. apply Qle_bool_iff.
Qed.

Lemma note_in_window_iff (t S : Q) (n : Note) :
  note_in_window t S n = true ↔ qualifies t S n.
Proof.
  unfold note_in_window, qualifies.
  rewrite orb_true_iff, !andb_true_iff, !Qle_bool_iff, !Qlt_bool_iff. done.
Qed.

Lemma collect_window_notes_filter (t S : Q) (all_notes : list Note) :
  collect_window_notes t S all_notes
  = pitch_class <$> List.filter (note_in_window t S) all_notes.
Proof.
  unfold collect_window_notes.
  enough (Hgen : ∀ acc,
    foldl (fun window_notes note =>
             if note_in_window t S note then window_notes ++ [pitch note mod 12]
             else window_notes) acc all_notes
    = acc ++ (pitch_class <$> List.filter (note_in_window t S) all_notes))
    by apply (Hgen []).
  induction all_notes as [|n l IH]; intros acc; simpl.
  - by rewrite app_nil_r.
  - rewrite IH. destruct (note_in_window t S n); [|done].
    by rewrite <- app_assoc.
Qed.

Lemma collect_window_notes_range (t S : Q) (all_notes : list Note) :
  Forall (fun p => 0 ≤ p < 12) (collect_window_notes t S all_notes).
Proof.
  rewrite collect_window_notes_filter. apply Forall_fmap, Forall_forall.
  intros n _. apply Z.mod_pos_bound. lia.
Qed.

(** *** [Counter] and [most_common] only reorder and count *)

Lemma counter_incr_keys (p q : Z) (c : list (Z * nat)) :
  q ∈ (Py.counter_incr p c).*1 → q = p ∨ q ∈ c.*1.
Proof.
  induction c as [|[k n] c IH]; simpl.
  - intros Hq%list_elem_of_singleton. by left.
  - destruct (p =? k) eqn:E; simpl; intros Hq; [by right|].
    apply elem_of_cons in Hq as [->|Hq]; [right; left|].
    destruct (IH Hq) as [->|Hq']; [by left|right; by right].
Qed.

Lemma Counter_keys (l : list Z) (q : Z) : q ∈ (Py.Counter l).*1 → q ∈ l.
Proof.
  unfold Py.Counter.
  enough (Hgen : ∀ c, q ∈ (foldl (fun c p => Py.counter_incr p c) c l).*1
                      → q ∈ c.*1 ∨ q ∈ l).
  { intros Hq. destruct (Hgen [] Hq) as [Hq'|Hq']; [|done].
    by apply elem_of_nil in Hq'. }
  induction l as [|p l IH]; intros c; simpl.
  - auto.
  - intros Hq. destruct (IH _ Hq) as [Hq'|Hq'].
    + apply counter_incr_keys in Hq' as [->|Hq']; [right; left|by left].
    + right. by right.
Qed.

Lemma insert_by_count_perm (x : Z * nat) (l : list (Z * nat)) :
  Py.insert_by_count x l ≡ₚ x :: l.
Proof.
  induction l as [|y l IH]; simpl; [done|].
  destruct (x.2 <? y.2)%nat; [|done].
  rewrite IH. apply Permutation_swap.
Qed.

Lemma sorted_by_count_perm (l : list (Z * nat)) : Py.sorted_by_count l ≡ₚ l.
Proof.
  induction l as [|x l IH]; simpl; [done|].
  by rewrite insert_by_count_perm, IH.
Qed.

Lemma most_common_keys (n : nat) (l : list Z) (q : Z) :
  q ∈ (Py.most_common n (Py.Counter l)).*1 → q ∈ l.
Proof.
  unfold Py.most_common. intros Hq. apply Counter_keys.
  apply list_elem_of_fmap in Hq as (kv & -> & Hkv).
  apply list_elem_of_fmap. exists kv. split; [done|].
  apply subseteq_take in Hkv. by rewrite sorted_by_count_perm in Hkv.
Qed.

(** *** One window never raises *)

Lemma window_chords_done (window_notes : list Z) (chords : list string) :
  Forall (fun p => 0 ≤ p < 12) window_notes →
  ∃ chord_name : option string,
    window_chords window_notes chords = Done (append_chord chord_name chords).
Proof.
  intros Hrange. unfold window_chords.
  destruct (3 <=? length window_notes)%nat; [|by exists None].
  destruct ((Py.most_common 6 (Py.Counter window_notes)).*1) as [|p ps] eqn:E;
    [by exists None|].
  rewrite pitches_to_chord_name_resolve.
  - by eexists (Some _).
  - discriminate.
  - apply Forall_forall. intros q Hq. rewrite <- E in Hq.
    apply most_common_keys in Hq. by apply (proj1 (Forall_forall _ _) Hrange).
Qed.

Lemma window_chords_skip (window_notes : list Z) (chords : list string) :
  (length window_notes < 3)%nat → window_chords window_notes chords = Done chords.
Proof.
  intros Hlen. unfold window_chords.
  by replace (3 <=? length window_notes)%nat with false
    by (symmetry; apply Nat.leb_gt; lia).
Qed.

Lemma window_step_done (all_notes : list Note) (S : Q) (st : loop_state) :
  ∃ chord_name : option string,
    window_step all_notes S st
    = Done {| current_time := current_time st + S;
              chords := append_chord chord_name (chords st) |}.
Proof.
  unfold window_step.
  destruct (window_chords_done (collect_window_notes (current_time st) S all_notes)
              (chords st) (collect_window_notes_range _ _ _)) as [name ->].
  by exists name.
Qed.

(** ** The final pass over [chords] *)

Lemma unique_loop_NoDup (chords unique_chords : list string) :
  NoDup unique_chords → NoDup (unique_loop chords unique_chords).
Proof.
  revert unique_chords.
  induction chords as [|chord chords' IH]; intros u Hu; cbn [unique_loop]; [done|].
  assert (Hu' : NoDup (if bool_decide (chord ∈ u) then u else u ++ [chord])).
  { case_bool_decide as Hin; [done|].
    apply NoDup_app. repeat split; [done| |apply NoDup_singleton].
    intros x Hx Hx'%list_elem_of_singleton. by subst x. }
  destruct (8 <=? length _)%nat; [done|]. by apply IH.
Qed.

Lemma unique_loop_length (chords unique_chords : list string) :
  (length unique_chords < 8)%nat →
  (length (unique_loop chords unique_chords) ≤ 8)%nat.
Proof.
  revert unique_chords.
  induction chords as [|chord chords' IH]; intros u Hu; cbn [unique_loop]; [lia|].
  assert (Hu' : (length (if bool_decide (chord ∈ u) then u else u ++ [chord]) ≤ 8)%nat).
  { case_bool_decide; [lia|]. rewrite length_app. simpl. lia. }
  destruct (8 <=? length _)%nat eqn:E; [done|].
  apply IH. by apply Nat.leb_gt in E.
Qed.

Lemma NoDup_no_adjacent_repeat (l : list string) :
  NoDup l → no_adjacent_repeat l.
Proof.
  intros Hnd i x y Hx Hy ->.
  pose proof (NoDup_lookup l _ _ _ Hnd Hx Hy). lia.
Qed.

(** ** The [while] loop *)

Lemma nQ_S (n : nat) : (nQ (S n) == nQ n + 1)%Q.
Proof.
  unfold nQ. rewrite Nat2Z.inj_succ, <- Z.add_1_r, inject_Z_plus. reflexivity.
Qed.

Lemma nQ_lt (i n : nat) : (i < n)%nat → (nQ i < nQ n)%Q.
Proof. intros Hlt. unfold nQ. rewrite <- Zlt_Qlt. lia. Qed.

Section Loop.

Variable all_notes : list Note.
Variables T ws : Q.

Lemma run_windows_snoc (n : nat) (st : loop_state) :
  run_windows (S n) all_notes ws st
  = st' ← run_windows n all_notes ws st; window_step all_notes ws st'.
Proof.
  revert st. induction n as [|n IH]; intros st.
  - simpl. by destruct (window_step all_notes ws st).
  - destruct (window_step_done all_notes ws st) as [name E].
    change (run_windows (S (S n)) all_notes ws st)
      with (st' ← window_step all_notes ws st;
            run_windows (S n) all_notes ws st').
    change (run_windows (S n) all_notes ws st)
      with (st' ← window_step all_notes ws st;
            run_windows n all_notes ws st').
    rewrite E. cbn [mbind outcome_bind]. apply IH.
Qed.

Lemma run_windows_done (n : nat) (st : loop_state) :
  ∃ st' : loop_state,
    run_windows n all_notes ws st = Done st'
    ∧ (current_time st' == current_time st + nQ n * ws)%Q.
Proof.
  revert st. induction n as [|n IH]; intros st.
  - exists st. split; [done|]. unfold nQ. simpl. ring.
  - simpl. destruct (window_step_done all_notes ws st) as [name ->].
    cbn [mbind outcome_bind].
    destruct (IH {| current_time := current_time st + ws;
                    chords := append_chord name (chords st) |})
      as (st' & -> & Ht).
    exists st'. split; [done|]. rewrite Ht, nQ_S. simpl. ring.
Qed.

(** The loop runs the body exactly [k] times when the guard holds before
    each of the first [k] runs and fails after them. *)
Lemma while_loop_exact (k fuel : nat) (st : loop_state) :
  (k < fuel)%nat →
  (∀ j : nat, (j < k)%nat → (current_time st + nQ j * ws < T)%Q) →
  (T <= current_time st + nQ k * ws)%Q →
  while_loop fuel all_notes T ws st = run_windows k all_notes ws st.
Proof.
  revert fuel st. induction k as [|k IH]; intros fuel st Hfuel Hguard Hstop.
  - destruct fuel as [|fuel]; [lia|]. simpl.
    replace (Py.Qlt_bool (current_time st) T) with false; [done|].
    symmetry. apply Qlt_bool_false_iff.
    eapply Qle_trans; [exact Hstop|].
    unfold nQ. simpl. apply Qle_lteq. right. ring.
  - destruct fuel as [|fuel]; [lia|]. simpl.
    replace (Py.Qlt_bool (current_time st) T) with true.
    2:{ symmetry. apply Qlt_bool_iff.
        eapply Qle_lt_trans; [|apply (Hguard 0%nat); lia].
        unfold nQ. simpl. apply Qle_lteq. right. ring. }
    destruct (window_step_done all_notes ws st) as [name ->].
    cbn [mbind outcome_bind]. apply IH; [lia| |]; cbn [current_time].
    + intros j Hj. eapply Qle_lt_trans; [|apply (Hguard (S j)); lia].
      rewrite nQ_S. apply Qle_lteq. right. ring.
    + eapply Qle_trans; [exact Hstop|].
      rewrite nQ_S. apply Qle_lteq. right. ring.
Qed.

End Loop.

(** ** Song length, window count and window size *)

Lemma insert_by_perm {A : Type} (key : A → Q) (x : A) (l : list A) :
  Py.insert_by key x l ≡ₚ x :: l.
Proof.
  induction l as [|y l IH]; simpl; [done|].
  destruct (Py.Qlt_bool (key y) (key x)); [|done].
  rewrite IH. apply Permutation_swap.
Qed.

Lemma sorted_by_perm {A : Type} (key : A → Q) (l : list A) :
  Py.sorted_by key l ≡ₚ l.
Proof.
  induction l as [|x l IH]; simpl; [done|].
  by rewrite insert_by_perm, IH.
Qed.

Lemma foldl_max_spec (rest : list Q) (x : Q) :
  let m := foldl (fun m y => if Py.Qlt_bool m y then y else m) x rest in
  m ∈ x :: rest ∧ (x <= m)%Q ∧ Forall (fun y => (y <= m)%Q) rest.
Proof.
  revert x. induction rest as [|y rest IH]; intros x; simpl.
  - split; [left|]. split; [apply Qle_refl|constructor].
  - destruct (Py.Qlt_bool x y) eqn:E.
    + destruct (IH y) as (Hin & Hle & Hall). apply Qlt_bool_iff in E.
      split; [by right|]. split.
      * eapply Qle_trans; [apply Qlt_le_weak, E|done].
      * by constructor.
    + destruct (IH x) as (Hin & Hle & Hall). apply Qlt_bool_false_iff in E.
      split.
      * apply elem_of_cons in Hin as [->|Hin]; [left|by do 2 right].
      * split; [done|]. constructor; [|done]. eapply Qle_trans; done.
Qed.

Lemma max_spec (l : list Q) :
  l ≠ [] →
  ∃ m : Q, Py.max l = Done m ∧ m ∈ l ∧ Forall (fun y => (y <= m)%Q) l.
Proof.
  destruct l as [|x rest]; [done|]. intros _.
  destruct (foldl_max_spec rest x) as (Hin & Hle & Hall).
  eexists. split; [reflexivity|]. split; [done|]. by constructor.
Qed.

(** The song length of a non-empty note list is the largest end time. *)
Lemma song_length_spec (all_notes : list Note) :
  all_notes ≠ [] →
  ∃ T : Q,
    Py.max (end_ <$> Py.sorted_by start all_notes) = Done T
    ∧ T ∈ end_ <$> all_notes
    ∧ ∀ n : Note, n ∈ all_notes → (end_ n <= T)%Q.
Proof.
  intros Hne.
  destruct (max_spec (end_ <$> Py.sorted_by start all_notes)) as (T & HT & Hin & Hall).
  { intros Hnil%fmap_nil_inv. apply Hne, Permutation_nil_r.
    by rewrite <- (sorted_by_perm start all_notes), Hnil. }
  exists T. split; [done|]. split.
  - by rewrite (sorted_by_perm start all_notes) in Hin.
  - intros n Hn. rewrite Forall_forall in Hall. apply Hall.
    apply list_elem_of_fmap. exists n. split; [done|].
    by rewrite (sorted_by_perm start all_notes).
Qed.

Lemma num_windows_of_bounds (T : Q) : 8 ≤ num_windows_of T ≤ 16.
Proof. unfold num_windows_of. lia. Qed.

Lemma int_floor (x : Q) : (0 <= x)%Q → Py.int x = Qfloor x.
Proof.
  destruct x as [n d]. unfold Qle, Py.int, Qfloor. simpl. intros Hn.
  apply Z.quot_div_nonneg; lia.
Qed.

Lemma num_windows_of_clamp (T : Q) :
  (0 <= T)%Q → num_windows_of T = clamp (Qfloor (T / 2)) 8 16.
Proof.
  intros HT. unfold num_windows_of, clamp. rewrite int_floor.
  - destruct (Z.ltb_spec (Qfloor (T / 2)) 8); [lia|].
    destruct (Z.ltb_spec 16 (Qfloor (T / 2))); lia.
  - apply Qle_shift_div_l; [reflexivity|]. by rewrite Qmult_0_l.
Qed.

Lemma num_windows_of_pos (T : Q) : (0 < inject_Z (num_windows_of T))%Q.
Proof.
  change 0%Q with (inject_Z 0). rewrite <- Zlt_Qlt.
  pose proof (num_windows_of_bounds T). lia.
Qed.

Lemma windows_cover (T : Q) :
  (inject_Z (num_windows_of T) * window_size_of T == T)%Q.
Proof.
  unfold window_size_of. apply Qmult_div_r.
  intros H0. pose proof (num_windows_of_pos T) as Hpos.
  rewrite H0 in Hpos. by apply Qlt_irrefl in Hpos.
Qed.

Lemma window_size_of_pos (T : Q) : (0 < T)%Q → (0 < window_size_of T)%Q.
Proof.
  intros HT. unfold window_size_of, Qdiv.
  apply Qmult_lt_0_compat; [done|]. apply Qinv_lt_0_compat, num_windows_of_pos.
Qed.

Lemma nQ_num_windows (T : Q) :
  nQ (Z.to_nat (num_windows_of T)) = inject_Z (num_windows_of T).
Proof.
  unfold nQ. rewrite Z2Nat.id; [done|].
  pose proof (num_windows_of_bounds T). lia.
Qed.

Lemma iterations_le_16 (T : Q) : (iterations T ≤ 16)%nat.
Proof.
  unfold iterations. pose proof (num_windows_of_bounds T).
  destruct (Py.Qlt_bool 0 T); lia.
Qed.

Lemma window_start_lt (T : Q) (j : nat) :
  (0 < T)%Q → (j < Z.to_nat (num_windows_of T))%nat →
  (nQ j * window_size_of T < T)%Q.
Proof.
  intros HT Hj. apply nQ_lt in Hj. rewrite nQ_num_windows in Hj.
  eapply Qlt_le_trans.
  - apply Qmult_lt_compat_r; [by apply window_size_of_pos|exact Hj].
  - apply Qle_lteq. right. apply windows_cover.
Qed.

Lemma while_loop_iterations (fuel : nat) (all_notes : list Note) (T : Q) :
  (17 ≤ fuel)%nat →
  while_loop fuel all_notes T (window_size_of T) initial_state
  = run_windows (iterations T) all_notes (window_size_of T) initial_state.
Proof.
  intros Hfuel. apply while_loop_exact.
  - pose proof (iterations_le_16 T). lia.
  - intros j Hj. unfold iterations in Hj.
    destruct (Py.Qlt_bool 0 T) eqn:E; [|lia]. apply Qlt_bool_iff in E.
    cbn [initial_state current_time]. rewrite Qplus_0_l.
    by apply window_start_lt.
  - cbn [initial_state current_time]. rewrite Qplus_0_l. unfold iterations.
    destruct (Py.Qlt_bool 0 T) eqn:E.
    + rewrite nQ_num_windows. apply Qle_lteq. right. symmetry. apply windows_cover.
    + apply Qlt_bool_false_iff in E. unfold nQ. simpl. by rewrite Qmult_0_l.
Qed.

(** With enough fuel [windowed_chords] is the run of the body over all
    windows; fuel beyond 17 changes nothing. *)
Lemma windowed_chords_unroll (fuel : nat) (all_notes : list Note) :
  (17 ≤ fuel)%nat →
  windowed_chords fuel all_notes
  = (T ← Py.max (end_ <$> Py.sorted_by start all_notes);
     st ← run_windows (iterations T) (Py.sorted_by start all_notes)
            (window_size_of T) initial_state;
     Done (chords st)).
Proof.
  intros Hfuel. unfold windowed_chords.
  destruct (Py.max (end_ <$> Py.sorted_by start all_notes)) as [T| |]; [|done..].
  cbn [mbind outcome_bind]. by rewrite while_loop_iterations.
Qed.

Lemma windowed_chords_fuel (fuel : nat) (all_notes : list Note) :
  (17 ≤ fuel)%nat → windowed_chords fuel all_notes = windowed_chords 17 all_notes.
Proof.
  intros Hfuel. by rewrite !windowed_chords_unroll by lia.
Qed.

Lemma windowed_chords_total (fuel : nat) (all_notes : list Note) :
  (17 ≤ fuel)%nat → all_notes ≠ [] →
  ∃ chords : list string, windowed_chords fuel all_notes = Done chords.
Proof.
  intros Hfuel Hne. rewrite windowed_chords_unroll by done.
  destruct (song_length_spec all_notes Hne) as (T & -> & _).
  cbn [mbind outcome_bind].
  destruct (run_windows_done (Py.sorted_by start all_notes) (window_size_of T)
              (iterations T) initial_state) as (st & -> & _).
  by exists (chords st).
Qed.

Lemma midi_to_chords_fuel (fuel : nat) (midi_data : PrettyMIDI) :
  (17 ≤ fuel)%nat → midi_to_chords fuel midi_data = midi_to_chords 17 midi_data.
Proof.
  intros Hfuel. unfold midi_to_chords, midi_to_chords_try, unique_chords_of.
  by rewrite windowed_chords_fuel.
Qed.

(** What [midi_to_chords] returns on a non-empty note list, in terms of the
    list [unique_chords]. *)
Lemma midi_to_chords_unique_chords (fuel : nat) (midi_data : PrettyMIDI) :
  (17 ≤ fuel)%nat → gather_notes midi_data ≠ [] →
  ∃ chords : list string,
    windowed_chords fuel (gather_notes midi_data) = Done chords
    ∧ unique_chords_of fuel (gather_notes midi_data) = Done (unique_loop chords [])
    ∧ midi_to_chords fuel midi_data = Done (join_or_none (unique_loop chords [])).
Proof.
  intros Hfuel Hne.
  destruct (windowed_chords_total fuel _ Hfuel Hne) as [cs Hcs].
  exists cs. split; [done|].
  unfold midi_to_chords, midi_to_chords_try, unique_chords_of. rewrite Hcs.
  destruct (gather_notes midi_data); done.
Qed.

(** C4.  For a non-empty list of well-formed notes, with [T] the largest end
    time: the number of windows is [clamp (floor (T / 2)) 8 16], the window
    size is [T / W], the loop runs its body exactly [W] times, and before
    run [i] the window start [current_time] equals [i * S] (the guard holds
    there for [i < W] and fails for [i = W]). *)
Theorem window_count_and_starts :
  ∀ (fuel : nat) (all_notes : list Note),
    all_notes ≠ [] → Forall well_formed all_notes → (17 ≤ fuel)%nat →
    ∃ T : Q,
      Py.max (end_ <$> Py.sorted_by start all_notes) = Done T
      ∧ T ∈ end_ <$> all_notes
      ∧ (∀ n : Note, n ∈ all_notes → (end_ n <= T)%Q)
      ∧ let W := num_windows_of T in
        let S := window_size_of T in
        let sorted_notes := Py.sorted_by start all_notes in
        W = clamp (Qfloor (T / 2)) 8 16
        ∧ (S == T / inject_Z W)%Q
        ∧ while_loop fuel sorted_notes T S initial_state
          = run_windows (Z.to_nat W) sorted_notes S initial_state
        ∧ windowed_chords fuel all_notes
          = chords <$> run_windows (Z.to_nat W) sorted_notes S initial_state
        ∧ ∀ i : nat, (i ≤ Z.to_nat W)%nat →
            ∃ st : loop_state,
              run_windows i sorted_notes S initial_state = Done st
              ∧ (current_time st == nQ i * S)%Q
              ∧ Py.Qlt_bool (current_time st) T = bool_decide (i < Z.to_nat W)%nat.
Proof.
  intros fuel all_notes Hne Hwf Hfuel.
  destruct (song_length_spec all_notes Hne) as (T & HT & Hin & Hmax).
  exists T. split; [done|]. split; [done|]. split; [done|].
  assert (Hpos : (0 < T)%Q).
  { apply list_elem_of_fmap in Hin as (n & -> & Hn).
    rewrite Forall_forall in Hwf. destruct (Hwf n Hn) as [H0 Hlt].
    eapply Qle_lt_trans; done. }
  assert (Hit : iterations T = Z.to_nat (num_windows_of T)).
  { unfold iterations. by rewrite (proj2 (Qlt_bool_iff 0 T) Hpos). }
  cbn zeta. split; [apply num_windows_of_clamp, Qlt_le_weak, Hpos|].
  split; [reflexivity|].
  split; [by rewrite while_loop_iterations, Hit|].
  split.
  { rewrite windowed_chords_unroll, HT by done. cbn [mbind outcome_bind].
    rewrite Hit. by destruct (run_windows _ _ _ _). }
  intros i Hi.
  destruct (run_windows_done (Py.sorted_by start all_notes) (window_size_of T)
              i initial_state) as (st & Hst & Ht).
  cbn [initial_state current_time] in Ht. rewrite Qplus_0_l in Ht.
  exists st. split; [done|]. split; [done|].
  case_bool_decide as Hlt.
  - apply Qlt_bool_iff. rewrite Ht. by apply window_start_lt.
  - apply Qlt_bool_false_iff. rewrite Ht.
    replace i with (Z.to_nat (num_windows_of T)) by lia.
    rewrite nQ_num_windows. apply Qle_lteq. right. symmetry. apply windows_cover.
Qed.

Lemma window_count_and_starts_witness :
  ∃ T : Q,
    Py.max (end_ <$> Py.sorted_by start C_triad_4s) = Done T
    ∧ T ∈ end_ <$> C_triad_4s
    ∧ (∀ n : Note, n ∈ C_triad_4s → (end_ n <= T)%Q)
    ∧ let W := num_windows_of T in
      let S := window_size_of T in
      let sorted_notes := Py.sorted_by start C_triad_4s in
      W = clamp (Qfloor (T / 2)) 8 16
      ∧ (S == T / inject_Z W)%Q
      ∧ while_loop 17 sorted_notes T S initial_state
        = run_windows (Z.to_nat W) sorted_notes S initial_state
      ∧ windowed_chords 17 C_triad_4s
        = chords <$> run_windows (Z.to_nat W) sorted_notes S initial_state
      ∧ ∀ i : nat, (i ≤ Z.to_nat W)%nat →
          ∃ st : loop_state,
            run_windows i sorted_notes S initial_state = Done st
            ∧ (current_time st == nQ i * S)%Q
            ∧ Py.Qlt_bool (current_time st) T = bool_decide (i < Z.to_nat W)%nat.
Proof.
  apply (window_count_and_starts 17 C_triad_4s).
  - discriminate.
  - unfold C_triad_4s, well_formed. repeat constructor; simpl; discriminate.
  - lia.
Defined.

(** ** Windows that collect fewer than three notes, in exact arithmetic *)

Lemma note_in_window_Qeq (t t' ws : Q) (n : Note) :
  (t == t')%Q → note_in_window t ws n = note_in_window t' ws n.
Proof.
  intros Ht. unfold note_in_window, Py.Qlt_bool. by rewrite Ht.
Qed.

Lemma collect_window_notes_Qeq (t t' ws : Q) (all_notes : list Note) :
  (t == t')%Q →
  collect_window_notes t ws all_notes = collect_window_notes t' ws all_notes.
Proof.
  intros Ht. rewrite !collect_window_notes_filter. f_equal.
  apply List.filter_ext. intros n. by apply note_in_window_Qeq.
Qed.

Lemma run_windows_skip (all_notes : list Note) (ws : Q) (k i : nat) (st : loop_state) :
  (current_time st == nQ i * ws)%Q →
  (∀ j : nat, (i ≤ j < i + k)%nat →
     (length (collect_window_notes (nQ j * ws) ws all_notes) < 3)%nat) →
  ∃ st' : loop_state,
    run_windows k all_notes ws st = Done st' ∧ chords st' = chords st.
Proof.
  revert i st. induction k as [|k IH]; intros i st Ht Hfew.
  - by exists st.
  - cbn [run_windows]. unfold window_step.
    rewrite (collect_window_notes_Qeq _ _ _ _ Ht).
    rewrite window_chords_skip by (apply Hfew; lia).
    cbn [mbind outcome_bind].
    destruct (IH (S i) {| current_time := current_time st + ws; chords := chords st |})
      as (st' & Hrun & Hchords).
    + cbn [current_time]. rewrite Ht, nQ_S. ring.
    + intros j Hj. apply Hfew. lia.
    + exists st'. by split.
Qed.

Lemma windowed_chords_none (fuel : nat) (all_notes : list Note) :
  (17 ≤ fuel)%nat → all_notes ≠ [] → no_window_collects_three all_notes →
  windowed_chords fuel all_notes = Done [].
Proof.
  intros Hfuel Hne Hfew. rewrite windowed_chords_unroll by done.
  destruct (song_length_spec all_notes Hne) as (T & HT & _).
  rewrite HT. cbn [mbind outcome_bind].
  destruct (run_windows_skip (Py.sorted_by start all_notes) (window_size_of T)
              (iterations T) 0 initial_state) as (st & -> & Hchords).
  - unfold nQ. simpl. by rewrite Qmult_0_l.
  - intros j Hj. apply (Hfew T HT j). lia.
  - cbn [mbind outcome_bind]. by rewrite Hchords.
Qed.

(** ** The returned chord sequence *)

(** For every input, with enough fuel, the call returns [join_or_none l],
    where [l] is the list [unique_chords] the code built (the empty list on
    the early return); [l] has no duplicates and at most 8 elements. *)
Lemma midi_to_chords_sequence (fuel : nat) (midi_data : PrettyMIDI) :
  (17 ≤ fuel)%nat →
  ∃ l : list string,
    midi_to_chords fuel midi_data = Done (join_or_none l)
    ∧ (gather_notes midi_data ≠ [] →
       unique_chords_of fuel (gather_notes midi_data) = Done l)
    ∧ NoDup l ∧ (length l ≤ 8)%nat.
Proof.
  intros Hfuel. destruct (gather_notes midi_data) as [|n ns] eqn:E.
  - exists []. unfold midi_to_chords, midi_to_chords_try. rewrite E.
    repeat split; [done|apply NoDup_nil_2|simpl; lia].
  - destruct (midi_to_chords_unique_chords fuel midi_data Hfuel) as (cs & _ & Hu & Hr).
    { by rewrite E. }
    exists (unique_loop cs []). rewrite E in Hu.
    repeat split; [done|done| |].
    + apply unique_loop_NoDup, NoDup_nil_2.
    + apply unique_loop_length. simpl. lia.
Qed.

(** C7, as stated, fails: there is no [maxChords] argument, and a bound
    below the fixed 8 does not hold. *)
Lemma length_bound_fails_below_8 :
  ∃ (k : nat) (l : list string),
    unique_chords_of 17 (gather_notes alternating_C_G) = Done l
    ∧ midi_to_chords 17 alternating_C_G = Done (join_or_none l)
    ∧ ¬ (length l ≤ k)%nat.
Proof.
  exists 1%nat, ["C"; "G"].
  split; [vm_compute; reflexivity|]. split; [vm_compute; reflexivity|].
  simpl. lia.
Qed.

(** C7 (amended).  The returned sequence has at most 8 elements; 8 is a
    constant of the code, not an argument. *)
Theorem at_most_8_chords :
  ∀ (fuel : nat) (midi_data : PrettyMIDI),
    (17 ≤ fuel)%nat →
    ∃ l : list string,
      midi_to_chords fuel midi_data = Done (join_or_none l)
      ∧ (gather_notes midi_data ≠ [] →
         unique_chords_of fuel (gather_notes midi_data) = Done l)
      ∧ (length l ≤ 8)%nat.
Proof.
  intros fuel midi_data Hfuel.
  destruct (midi_to_chords_sequence fuel midi_data Hfuel) as (l & Hr & Hu & _ & Hlen).
  by exists l.
Qed.

Lemma at_most_8_chords_witness :
  ∃ l : list string,
    midi_to_chords 17 alternating_C_G = Done (join_or_none l)
    ∧ (gather_notes alternating_C_G ≠ [] →
       unique_chords_of 17 (gather_notes alternating_C_G) = Done l)
    ∧ (length l ≤ 8)%nat.
Proof. apply (at_most_8_chords 17 alternating_C_G). lia. Defined.

(** C8.  The returned sequence never has two equal neighbours. *)
Theorem no_consecutive_repeat :
  ∀ (fuel : nat) (midi_data : PrettyMIDI),
    (17 ≤ fuel)%nat →
    ∃ l : list string,
      midi_to_chords fuel midi_data = Done (join_or_none l)
      ∧ (gather_notes midi_data ≠ [] →
         unique_chords_of fuel (gather_notes midi_data) = Done l)
      ∧ ∀ (i : nat) (x y : string), l !! i = Some x → l !! S i = Some y → x ≠ y.
Proof.
  intros fuel midi_data Hfuel.
  destruct (midi_to_chords_sequence fuel midi_data Hfuel) as (l & Hr & Hu & Hnd & _).
  exists l. repeat split; [done|done|]. by apply NoDup_no_adjacent_repeat.
Qed.

Lemma no_consecutive_repeat_witness :
  ∃ l : list string,
    midi_to_chords 17 alternating_C_G = Done (join_or_none l)
    ∧ (gather_notes alternating_C_G ≠ [] →
       unique_chords_of 17 (gather_notes alternating_C_G) = Done l)
    ∧ ∀ (i : nat) (x y : string), l !! i = Some x → l !! S i = Some y → x ≠ y.
Proof. apply (no_consecutive_repeat 17 alternating_C_G). lia. Defined.

(** C10.  The elements of the returned sequence are pairwise distinct. *)
Theorem chords_pairwise_distinct :
  ∀ (fuel : nat) (midi_data : PrettyMIDI),
    (17 ≤ fuel)%nat →
    ∃ l : list string,
      midi_to_chords fuel midi_data = Done (join_or_none l)
      ∧ (gather_notes midi_data ≠ [] →
         unique_chords_of fuel (gather_notes midi_data) = Done l)
      ∧ NoDup l.
Proof.
  intros fuel midi_data Hfuel.
  destruct (midi_to_chords_sequence fuel midi_data Hfuel) as (l & Hr & Hu & Hnd & _).
  by exists l.
Qed.

Lemma chords_pairwise_distinct_witness :
  ∃ l : list string,
    midi_to_chords 17 alternating_C_G = Done (join_or_none l)
    ∧ (gather_notes alternating_C_G ≠ [] →
       unique_chords_of 17 (gather_notes alternating_C_G) = Done l)
    ∧ NoDup l.
Proof. apply (chords_pairwise_distinct 17 alternating_C_G). lia. Defined.

(** ** Empty input *)

Lemma gather_notes_nil (midi_data : PrettyMIDI) :
  Forall (fun instrument => is_drum instrument = true ∨ notes instrument = [])
    (instruments midi_data) →
  gather_notes midi_data = [].
Proof.
  unfold gather_notes. induction 1 as [|inst insts Hinst _ IH]; [done|].
  simpl. destruct Hinst as [-> | Hno]; [done|].
  destruct (is_drum inst); simpl; [done|]. by rewrite Hno.
Qed.

(** C2, as stated, fails: without notes the call returns [None], the absent
    value, and not an empty sequence. *)
Lemma empty_input_not_empty_sequence :
  midi_to_chords 17 no_tracks = Done None
  ∧ ¬ returns_sequence (midi_to_chords 17 no_tracks) []
  ∧ midi_to_chords 17 drums_only = Done None
  ∧ ¬ returns_sequence (midi_to_chords 17 drums_only) [].
Proof. repeat split; try reflexivity; vm_compute; discriminate. Qed.

(** C2 (amended).  When there is no note, or every note belongs to a drum
    instrument, [midi_to_chords] raises nothing and returns [None]. *)
Theorem empty_input_returns_None :
  ∀ (fuel : nat) (midi_data : PrettyMIDI),
    Forall (fun instrument => is_drum instrument = true ∨ notes instrument = [])
      (instruments midi_data) →
    gather_notes midi_data = [] ∧ midi_to_chords fuel midi_data = Done None.
Proof.
  intros fuel midi_data Hall. pose proof (gather_notes_nil _ Hall) as E.
  split; [done|]. unfold midi_to_chords, midi_to_chords_try. by rewrite E.
Qed.

Lemma empty_input_returns_None_witness :
  gather_notes drums_only = [] ∧ midi_to_chords 0 drums_only = Done None.
Proof.
  apply (empty_input_returns_None 0 drums_only).
  repeat constructor.
Defined.

(** ** The alternating recording *)

(** The octave of a note does not matter: only start, end and pitch class
    are read. *)
Lemma insert_by_same_class (x x' : Note) (l l' : list Note) :
  same_class x x' → Forall2 same_class l l' →
  Forall2 same_class (Py.insert_by start x l) (Py.insert_by start x' l').
Proof.
  intros Hx. induction 1 as [|y y' l l' Hy Hl IH]; simpl.
  - constructor; [exact Hx|constructor].
  - replace (Py.Qlt_bool (start y') (start x'))
      with (Py.Qlt_bool (start y) (start x))
      by (destruct Hx as (-> & _), Hy as (-> & _); done).
    destruct (Py.Qlt_bool (start y) (start x)).
    + constructor; [exact Hy|exact IH].
    + constructor; [exact Hx|]. constructor; [exact Hy|exact Hl].
Qed.

Lemma sorted_by_same_class (l l' : list Note) :
  Forall2 same_class l l' →
  Forall2 same_class (Py.sorted_by start l) (Py.sorted_by start l').
Proof.
  induction 1 as [|x x' l l' Hx Hl IH]; simpl; [constructor|].
  by apply insert_by_same_class.
Qed.

Lemma ends_same_class (l l' : list Note) :
  Forall2 same_class l l' → end_ <$> l = end_ <$> l'.
Proof.
  induction 1 as [|x x' l l' (_ & He & _) Hl IH]; [done|].
  rewrite !fmap_cons. by rewrite He, IH.
Qed.

Lemma collect_window_notes_same_class (t ws : Q) (l l' : list Note) :
  Forall2 same_class l l' →
  collect_window_notes t ws l = collect_window_notes t ws l'.
Proof.
  rewrite !collect_window_notes_filter.
  induction 1 as [|x x' l l' (Hs & He & Hp) Hl IH]; [done|]. simpl.
  replace (note_in_window t ws x') with (note_in_window t ws x)
    by (unfold note_in_window; by rewrite Hs, He).
  destruct (note_in_window t ws x); [|done].
  rewrite !fmap_cons. unfold pitch_class at 1 3. by rewrite Hp, IH.
Qed.

Lemma while_loop_same_class (fuel : nat) (l l' : list Note) (T ws : Q)
    (st : loop_state) :
  Forall2 same_class l l' →
  while_loop fuel l T ws st = while_loop fuel l' T ws st.
Proof.
  intros Hl. revert st. induction fuel as [|fuel IH]; intros st; [done|].
  simpl. destruct (Py.Qlt_bool (current_time st) T); [|done].
  unfold window_step. rewrite (collect_window_notes_same_class _ _ _ _ Hl).
  destruct (window_chords _ _); [|done..]. cbn [mbind outcome_bind]. apply IH.
Qed.

Lemma windowed_chords_same_class (fuel : nat) (l l' : list Note) :
  Forall2 same_class l l' → windowed_chords fuel l = windowed_chords fuel l'.
Proof.
  intros Hl%sorted_by_same_class. unfold windowed_chords.
  rewrite (ends_same_class _ _ Hl).
  destruct (Py.max _) as [T| |]; [|done..]. cbn [mbind outcome_bind].
  by rewrite (while_loop_same_class _ _ _ _ _ _ Hl).
Qed.

(** C1, as stated, fails: the call does not return the eight alternating
    chords. *)
Lemma alternation_does_not_survive :
  unique_chords_of 17 (gather_notes alternating_C_G)
    ≠ Done ["C"; "G"; "C"; "G"; "C"; "G"; "C"; "G"]
  ∧ ¬ returns_sequence (midi_to_chords 17 alternating_C_G)
        ["C"; "G"; "C"; "G"; "C"; "G"; "C"; "G"].
Proof. split; vm_compute; discriminate. Qed.

(** C1 (amended).  For a recording alternating every second between C major
    and G major for 8 seconds (the notes of [alternating_C_G], in any
    octave), the eight windows yield C, G, C, G, C, G, C, G, and the call
    returns the sequence C, G: the final pass keeps the first occurrence of
    each chord only. *)
Theorem alternation_returns_C_G :
  ∀ (fuel : nat) (all_notes : list Note),
    (17 ≤ fuel)%nat →
    Forall2 same_class all_notes (gather_notes alternating_C_G) →
    windowed_chords fuel all_notes
      = Done ["C"; "G"; "C"; "G"; "C"; "G"; "C"; "G"]
    ∧ unique_chords_of fuel all_notes = Done ["C"; "G"]
    ∧ midi_to_chords fuel (one_track all_notes) = Done (Some "C - G").
Proof.
  intros fuel all_notes Hfuel Hsame.
  assert (Hw : windowed_chords fuel all_notes
               = Done ["C"; "G"; "C"; "G"; "C"; "G"; "C"; "G"]).
  { rewrite (windowed_chords_same_class _ _ _ Hsame), windowed_chords_fuel by done.
    vm_compute. reflexivity. }
  split; [done|].
  assert (Hu : unique_chords_of fuel all_notes = Done ["C"; "G"]).
  { unfold unique_chords_of. rewrite Hw. vm_compute. reflexivity. }
  split; [done|].
  unfold midi_to_chords, midi_to_chords_try.
  change (gather_notes (one_track all_notes)) with ([] ++ all_notes).
  rewrite app_nil_l, Hu.
  apply Forall2_length in Hsame. by destruct all_notes.
Qed.

Lemma alternation_returns_C_G_witness :
  windowed_chords 20 alternating_C_G_high
    = Done ["C"; "G"; "C"; "G"; "C"; "G"; "C"; "G"]
  ∧ unique_chords_of 20 alternating_C_G_high = Done ["C"; "G"]
  ∧ midi_to_chords 20 (one_track alternating_C_G_high) = Done (Some "C - G").
Proof.
  apply (alternation_returns_C_G 20 alternating_C_G_high).
  - lia.
  - repeat constructor.
Defined.

(** * Further properties of the extractor *)

(** ** [pitches_to_chord_name]: outcomes *)

Lemma getitem_in_range {A : Type} (l : list A) (i : Z) :
  - Z.of_nat (length l) ≤ i < Z.of_nat (length l) →
  ∃ x : A, Py.getitem l i = Done x ∧ x ∈ l.
Proof.
  intros Hi. unfold Py.getitem.
  set (j := if i <? 0 then i + Z.of_nat (length l) else i).
  assert (Hj : 0 ≤ j < Z.of_nat (length l)).
  { subst j. destruct (Z.ltb_spec i 0); lia. }
  replace ((0 <=? j) && (j <? Z.of_nat (length l))) with true
    by (symmetry; apply andb_true_iff; split; [apply Z.leb_le|apply Z.ltb_lt]; lia).
  destruct (l !! Z.to_nat j) as [x|] eqn:E.
  - exists x. split; [done|]. by eapply list_elem_of_lookup_2.
  - apply lookup_ge_None in E. lia.
Qed.

Lemma getitem_out_of_range {A : Type} (l : list A) (i : Z) :
  ¬ (- Z.of_nat (length l) ≤ i < Z.of_nat (length l)) →
  Py.getitem l i = Raised IndexError.
Proof.
  intros Hi. unfold Py.getitem.
  set (j := if i <? 0 then i + Z.of_nat (length l) else i).
  assert (Hj : ¬ (0 ≤ j < Z.of_nat (length l))).
  { subst j. destruct (Z.ltb_spec i 0); lia. }
  destruct (Z.leb_spec 0 j), (Z.ltb_spec j (Z.of_nat (length l))); simpl; try done.
  lia.
Qed.

(** X1.  [pitches_to_chord_name] returns [None] exactly on the empty list;
    it raises exactly when no template matches and the first pitch is
    outside [-12 .. 11], and then the exception is [IndexError]; in every
    other case it returns a name. *)
Theorem pitches_to_chord_name_outcomes :
  ∀ pitches : list Z,
    (pitches_to_chord_name pitches = Done None ↔ pitches = [])
    ∧ (∀ e : exn,
         pitches_to_chord_name pitches = Raised e
         ↔ e = IndexError
           ∧ try_chord_sizes [4%nat; 3%nat] pitches = None
           ∧ ∃ (p0 : Z) (rest : list Z),
               pitches = p0 :: rest ∧ ¬ (-12 ≤ p0 < 12))
    ∧ pitches_to_chord_name pitches ≠ OutOfFuel.
Proof.
  intros [|p0 rest].
  - split; [done|]. split; [|done].
    intros e. split; [done|]. by intros (_ & _ & p & r & [=] & _).
  - unfold pitches_to_chord_name.
    destruct (try_chord_sizes [4%nat; 3%nat] (p0 :: rest)) as [name|] eqn:E.
    + split; [done|]. split; [|done].
      intros e. split; [done|]. by intros (_ & [=] & _).
    + destruct (decide (-12 ≤ p0 < 12)) as [Hin|Hout].
      * destruct (getitem_in_range note_names p0) as (x & -> & _); [simpl; lia|].
        cbn [mbind outcome_bind]. split; [done|]. split; [|done].
        intros e. split; [done|].
        intros (_ & _ & p & r & [= <- <-] & Hp). by destruct Hp.
      * rewrite getitem_out_of_range by (simpl; lia).
        cbn [mbind outcome_bind]. split; [done|]. split; [|done].
        intros e. split.
        -- intros [= <-]. split; [done|]. split; [done|]. by exists p0, rest.
        -- by intros (-> & _).
Qed.

(** ** [pitches_to_chord_name]: an exact template match ignores the order *)

(** X2.  When the pitches are 3 or 4 in number and their set is a template,
    the result is that template's name, in whatever order the pitches come. *)
Theorem template_match_ignores_order :
  ∀ (pitches pitches' : list Z) (name : string),
    pitches ≡ₚ pitches' →
    (length pitches = 3 ∨ length pitches = 4)%nat →
    chord_patterns !! Py.frozenset pitches = Some name →
    pitches_to_chord_name pitches = Done (Some name)
    ∧ pitches_to_chord_name pitches' = Done (Some name).
Proof.
  assert (Hone : ∀ (P : list Z) (name : string),
    (length P = 3 ∨ length P = 4)%nat →
    chord_patterns !! Py.frozenset P = Some name →
    pitches_to_chord_name P = Done (Some name)).
  { intros P name Hlen Hname. destruct P as [|p0 P']; [simpl in Hlen; lia|].
    unfold pitches_to_chord_name. set (P := p0 :: P') in *.
    cbn [try_chord_sizes]. destruct Hlen as [Hlen|Hlen]; rewrite Hlen.
    - change (4 <=? 3)%nat with false. change (3 <=? 3)%nat with true.
      cbn iota. rewrite (take_ge P 3) by lia. by rewrite Hname.
    - change (4 <=? 4)%nat with true.
      cbn iota. rewrite (take_ge P 4) by lia. by rewrite Hname. }
  intros P P' name Hperm Hlen Hname. split; [by apply Hone|].
  apply Hone.
  - by rewrite <- (Permutation_length Hperm).
  - unfold Py.frozenset in *. by rewrite <- (list_to_set_perm_L P P' Hperm).
Qed.

Lemma template_match_ignores_order_witness :
  pitches_to_chord_name [9; 0; 4] = Done (Some "Am")
  ∧ pitches_to_chord_name [4; 9; 0] = Done (Some "Am").
Proof.
  apply (template_match_ignores_order [9; 0; 4] [4; 9; 0] "Am").
  - apply (Permutation_cons_app [4] [0] 9). apply perm_swap.
  - left. reflexivity.
  - vm_compute. reflexivity.
Defined.

(** ** The chord vocabulary *)

Lemma table_names_in_vocabulary (k : gset Z) (name : string) :
  chord_patterns !! k = Some name → name ∈ chord_vocabulary.
Proof.
  intros Hin%dict_lookup_elem.
  assert (Hall : forallb (fun kv : gset Z * string =>
                            bool_decide (kv.2 ∈ chord_vocabulary))
                   chord_patterns_entries = true) by (vm_compute; reflexivity).
  rewrite forallb_forall in Hall.
  apply list_elem_of_In, Hall in Hin. by apply bool_decide_eq_true_1 in Hin.
Qed.

Lemma note_names_in_vocabulary (name : string) :
  name ∈ note_names → name ∈ chord_vocabulary.
Proof.
  intros Hin.
  assert (Hall : forallb (fun n : string => bool_decide (n ∈ chord_vocabulary))
                   note_names = true) by (vm_compute; reflexivity).
  rewrite forallb_forall in Hall.
  apply list_elem_of_In, Hall in Hin. by apply bool_decide_eq_true_1 in Hin.
Qed.

Lemma try_chord_sizes_table (sizes : list nat) (pitches : list Z) (name : string) :
  try_chord_sizes sizes pitches = Some name →
  ∃ k : gset Z, chord_patterns !! k = Some name.
Proof.
  induction sizes as [|n sizes IH]; cbn [try_chord_sizes]; [done|].
  destruct (n <=? length pitches)%nat; [|done].
  destruct (chord_patterns !! Py.frozenset (take n pitches)) as [name'|] eqn:E; [|done].
  intros [= <-]. eauto.
Qed.

Lemma vocabulary_no_separator (name : string) :
  name ∈ chord_vocabulary →
  name ≠ "" ∧ Forall (fun c => c ≠ " "%char) (list_ascii_of_string name).
Proof.
  intros Hin.
  assert (Hall : forallb (fun n : string =>
                   negb (String.eqb n "")
                   && forallb (fun c => negb (Ascii.eqb c " "%char))
                        (list_ascii_of_string n))
                   chord_vocabulary = true) by (vm_compute; reflexivity).
  rewrite forallb_forall in Hall.
  apply list_elem_of_In, Hall in Hin.
  apply andb_true_iff in Hin as [Hne Hsp]. split.
  - apply negb_true_iff, String.eqb_neq in Hne. done.
  - apply Forall_forall. intros c Hc. rewrite forallb_forall in Hsp.
    apply list_elem_of_In, Hsp, negb_true_iff, Ascii.eqb_neq in Hc. done.
Qed.

Lemma pitches_to_chord_name_vocabulary (pitches : list Z) (name : string) :
  pitches_to_chord_name pitches = Done (Some name) → name ∈ chord_vocabulary.
Proof.
  intros Hname.
  destruct pitches as [|p0 rest]; [done|]. unfold pitches_to_chord_name in Hname.
  destruct (try_chord_sizes [4%nat; 3%nat] (p0 :: rest)) as [name'|] eqn:E.
  - injection Hname as <-. apply try_chord_sizes_table in E as [k Hk].
    by eapply table_names_in_vocabulary.
  - destruct (decide (-12 ≤ p0 < 12)) as [Hin|Hout].
    + destruct (getitem_in_range note_names p0) as (x & Hx & Hmem); [simpl; lia|].
      rewrite Hx in Hname. injection Hname as <-.
      by apply note_names_in_vocabulary.
    + rewrite getitem_out_of_range in Hname by (simpl; lia). done.
Qed.

Lemma append_chord_vocabulary (name : string) (chords : list string) :
  name ∈ chord_vocabulary →
  append_chord (Some name) chords
  = if differs_from_last name chords then chords ++ [name] else chords.
Proof.
  intros Hv. destruct (vocabulary_no_separator name Hv) as [Hne _].
  unfold append_chord.
  by replace (String.eqb name "") with false
    by (symmetry; by apply String.eqb_neq).
Qed.

(** X3.  Every name [pitches_to_chord_name] returns is a root name followed
    by nothing, [m], [maj7] or [7]; in particular it is never the empty
    string, so the truth test on the name in [midi_to_chords] never drops
    a name. *)
Theorem chord_name_in_vocabulary :
  ∀ (pitches : list Z) (name : string),
    pitches_to_chord_name pitches = Done (Some name) →
    name ∈ chord_vocabulary ∧ name ≠ ""
    ∧ ∀ chords : list string,
        append_chord (Some name) chords
        = if differs_from_last name chords then chords ++ [name] else chords.
Proof.
  intros pitches name Hname.
  pose proof (pitches_to_chord_name_vocabulary _ _ Hname) as Hv.
  destruct (vocabulary_no_separator name Hv) as [Hne _].
  split; [done|]. split; [done|].
  intros chords. by apply append_chord_vocabulary.
Qed.

Lemma chord_name_in_vocabulary_witness :
  "Dmaj7" ∈ chord_vocabulary ∧ "Dmaj7" ≠ ""
  ∧ ∀ chords : list string,
      append_chord (Some "Dmaj7") chords
      = if differs_from_last "Dmaj7" chords then chords ++ ["Dmaj7"] else chords.
Proof.
  apply (chord_name_in_vocabulary [2; 6; 9; 1] "Dmaj7").
  vm_compute. reflexivity.
Defined.

(** ** [midi_to_chords]: nothing raises once the file is parsed *)

Lemma window_chords_name (window_notes : list Z) (chords : list string) :
  Forall (fun p => 0 ≤ p < 12) window_notes →
  window_chords window_notes chords = Done chords
  ∨ ∃ name : string,
      name ∈ chord_vocabulary
      ∧ window_chords window_notes chords = Done (append_chord (Some name) chords).
Proof.
  intros Hrange. unfold window_chords.
  destruct (3 <=? length window_notes)%nat; [|by left].
  destruct ((Py.most_common 6 (Py.Counter window_notes)).*1) as [|p ps] eqn:E;
    [by left|].
  right. exists (resolve_spec (p :: ps)).
  assert (Hname : pitches_to_chord_name (p :: ps) = Done (Some (resolve_spec (p :: ps)))).
  { apply pitches_to_chord_name_resolve; [discriminate|].
    apply Forall_forall. intros q Hq. rewrite <- E in Hq.
    apply most_common_keys in Hq. by apply (proj1 (Forall_forall _ _) Hrange). }
  split; [by eapply pitches_to_chord_name_vocabulary|]. by rewrite Hname.
Qed.

Lemma window_step_name (all_notes : list Note) (ws : Q) (st : loop_state) :
  window_step all_notes ws st
    = Done {| current_time := current_time st + ws; chords := chords st |}
  ∨ ∃ name : string,
      name ∈ chord_vocabulary
      ∧ window_step all_notes ws st
        = Done {| current_time := current_time st + ws;
                  chords := append_chord (Some name) (chords st) |}.
Proof.
  unfold window_step.
  destruct (window_chords_name (collect_window_notes (current_time st) ws all_notes)
              (chords st) (collect_window_notes_range _ _ _)) as [->|(name & Hv & ->)].
  - by left.
  - right. by exists name.
Qed.

(** A property of [chords] that holds at the start and survives every
    append of a vocabulary name holds when the loop ends. *)
Lemma while_loop_invariant (Inv : list string → Prop) (all_notes : list Note)
    (T ws : Q) :
  (∀ (chords : list string) (name : string),
     Inv chords → name ∈ chord_vocabulary → Inv (append_chord (Some name) chords)) →
  ∀ (fuel : nat) (st : loop_state),
    Inv (chords st) →
    match while_loop fuel all_notes T ws st with
    | Done st' => Inv (chords st')
    | Raised _ => False
    | OutOfFuel => True
    end.
Proof.
  intros Hstep fuel. induction fuel as [|fuel IH]; intros st Hst; [done|].
  cbn [while_loop]. destruct (Py.Qlt_bool (current_time st) T); [|done].
  destruct (window_step_name all_notes ws st) as [->|(name & Hv & ->)];
    cbn [mbind outcome_bind]; apply IH; cbn [chords]; auto.
Qed.

Lemma windowed_chords_invariant (Inv : list string → Prop) :
  Inv [] →
  (∀ (chords : list string) (name : string),
     Inv chords → name ∈ chord_vocabulary → Inv (append_chord (Some name) chords)) →
  ∀ (fuel : nat) (all_notes : list Note),
    all_notes ≠ [] →
    match windowed_chords fuel all_notes with
    | Done chords => Inv chords
    | Raised _ => False
    | OutOfFuel => True
    end.
Proof.
  intros Hnil Hstep fuel all_notes Hne. unfold windowed_chords.
  destruct (song_length_spec all_notes Hne) as (T & -> & _).
  cbn [mbind outcome_bind].
  pose proof (while_loop_invariant Inv (Py.sorted_by start all_notes) T
                (window_size_of T) Hstep fuel initial_state Hnil) as H.
  by destruct (while_loop _ _ _ _ _).
Qed.

(** X4.  Whatever the fuel, the body of the [try] block raises nothing on a
    parsed file: the [except] branch can only be reached from the parser. *)
Theorem try_block_never_raises :
  ∀ (fuel : nat) (midi_data : PrettyMIDI) (e : exn),
    midi_to_chords_try fuel midi_data ≠ Raised e
    ∧ midi_to_chords fuel midi_data = midi_to_chords_try fuel midi_data.
Proof.
  intros fuel midi_data e.
  assert (H : ∀ e', midi_to_chords_try fuel midi_data ≠ Raised e').
  { intros e'. unfold midi_to_chords_try, unique_chords_of.
    destruct (gather_notes midi_data) as [|n ns] eqn:E; [done|].
    pose proof (windowed_chords_invariant (fun _ => True) I (fun _ _ _ _ => I)
                  fuel (n :: ns)) as Hw.
    destruct (windowed_chords fuel (n :: ns)); [done| |done].
    by destruct Hw. }
  split; [apply H|]. unfold midi_to_chords.
  destruct (midi_to_chords_try fuel midi_data) as [r|e'|] eqn:E; [done| |done].
  by destruct (H e').
Qed.

(** ** The list [chords] the loop builds *)

Lemma no_adjacent_repeat_snoc (l : list string) (x : string) :
  no_adjacent_repeat l → last l ≠ Some x → no_adjacent_repeat (l ++ [x]).
Proof.
  intros Hl Hlast i a b Ha Hb.
  destruct (decide (S i < length l)%nat) as [Hlt|Hge].
  - rewrite lookup_app_l in Ha, Hb by lia. by eapply Hl.
  - assert (Hlen : S i = length l).
    { apply lookup_lt_Some in Hb. rewrite length_app in Hb. simpl in Hb. lia. }
    rewrite lookup_app_l in Ha by lia.
    rewrite lookup_app_r, <- Hlen, Nat.sub_diag in Hb by lia. injection Hb as <-.
    intros ->. apply Hlast. rewrite last_lookup, <- Hlen. done.
Qed.

Lemma append_chord_no_adjacent_repeat (name : string) (chords : list string) :
  no_adjacent_repeat chords → name ∈ chord_vocabulary →
  no_adjacent_repeat (append_chord (Some name) chords).
Proof.
  intros Hl Hv. rewrite append_chord_vocabulary by done. unfold differs_from_last.
  destruct (last chords) as [prev|] eqn:E.
  - destruct (String.eqb name prev) eqn:Eq; [done|]. cbn [negb].
    apply no_adjacent_repeat_snoc; [done|]. rewrite E. intros [= ->].
    by rewrite String.eqb_refl in Eq.
  - apply no_adjacent_repeat_snoc; [done|]. by rewrite E.
Qed.

Lemma append_chord_length (chord_name : option string) (chords : list string) :
  (length (append_chord chord_name chords) ≤ S (length chords))%nat.
Proof.
  unfold append_chord. destruct chord_name as [name|]; [|lia].
  destruct (_ && _); [|lia]. rewrite length_app. simpl. lia.
Qed.

(** ** The final pass is "first occurrences, then the first 8" *)

Lemma first_occurrences_prefix (seen l : list string) :
  ∃ k : list string, first_occurrences seen l = seen ++ k.
Proof.
  revert seen. induction l as [|x l IH]; intros seen; simpl.
  - exists []. by rewrite app_nil_r.
  - case_bool_decide; [apply IH|].
    destruct (IH (seen ++ [x])) as [k ->]. exists (x :: k).
    by rewrite <- app_assoc.
Qed.

Lemma first_occurrences_elem (seen l : list string) (x : string) :
  x ∈ first_occurrences seen l ↔ x ∈ seen ∨ x ∈ l.
Proof.
  revert seen. induction l as [|y l IH]; intros seen; simpl.
  - split; [by left|]. intros [H|H]; [done|]. by apply elem_of_nil in H.
  - rewrite IH. case_bool_decide as Hy.
    + rewrite elem_of_cons. split; [intros [H|H]; auto|].
      intros [H|[->|H]]; auto.
    + rewrite elem_of_app, list_elem_of_singleton, elem_of_cons.
      split; [intros [[H|H]|H]; auto|]. intros [H|[H|H]]; auto.
Qed.

Lemma first_occurrences_NoDup (seen l : list string) :
  NoDup seen → NoDup (first_occurrences seen l).
Proof.
  revert seen. induction l as [|x l IH]; intros seen Hnd; simpl; [done|].
  apply IH. case_bool_decide as Hx; [done|].
  apply NoDup_app. repeat split; [done| |apply NoDup_singleton].
  intros y Hy Hy'%list_elem_of_singleton. by subst y.
Qed.

Lemma first_occurrences_app (seen l1 l2 : list string) :
  first_occurrences seen (l1 ++ l2)
  = first_occurrences (first_occurrences seen l1) l2.
Proof.
  revert seen. induction l1 as [|x l1 IH]; intros seen; simpl; [done|]. apply IH.
Qed.

Lemma first_occurrences_seen (seen l : list string) :
  (∀ x : string, x ∈ l → x ∈ seen) → first_occurrences seen l = seen.
Proof.
  induction l as [|x l IH]; intros Hall; simpl; [done|].
  rewrite bool_decide_eq_true_2 by (apply Hall; left).
  apply IH. intros y Hy. apply Hall. by right.
Qed.

Lemma unique_loop_take (chords unique_chords : list string) :
  (length unique_chords < 8)%nat →
  unique_loop chords unique_chords
  = take 8 (first_occurrences unique_chords chords).
Proof.
  revert unique_chords.
  induction chords as [|chord chords' IH]; intros u Hu; cbn [unique_loop first_occurrences].
  - by rewrite take_ge by lia.
  - set (u' := if bool_decide (chord ∈ u) then u else u ++ [chord]).
    assert (Hu' : (length u' ≤ 8)%nat).
    { subst u'. case_bool_decide; [lia|]. rewrite length_app. simpl. lia. }
    destruct (8 <=? length u')%nat eqn:E.
    + apply Nat.leb_le in E. destruct (first_occurrences_prefix u' chords') as [k ->].
      rewrite take_app_length' by lia. done.
    + apply Nat.leb_gt in E. by apply IH.
Qed.

(** X6.  The final pass of [midi_to_chords] returns the first 8 of the
    distinct chords, in the order of their first occurrence; leaving the loop
    at 8 kept chords is the same as slicing [[:8]] at the end. *)
Theorem final_pass_first_8_distinct :
  ∀ chords : list string,
    unique_loop chords [] = take 8 (first_occurrences [] chords)
    ∧ NoDup (first_occurrences [] chords)
    ∧ (∀ x : string, x ∈ first_occurrences [] chords ↔ x ∈ chords)
    ∧ (∀ x : string, x ∈ unique_loop chords [] → x ∈ chords).
Proof.
  intros chords.
  assert (Ht : unique_loop chords [] = take 8 (first_occurrences [] chords))
    by (apply unique_loop_take; simpl; lia).
  split; [done|]. split; [apply first_occurrences_NoDup, NoDup_nil_2|].
  assert (Hel : ∀ x : string, x ∈ first_occurrences [] chords ↔ x ∈ chords).
  { intros x. rewrite first_occurrences_elem. split; [|by right].
    intros [H|H]; [|done]. by apply elem_of_nil in H. }
  split; [done|].
  intros x. rewrite Ht. intros Hx%subseteq_take. by apply Hel.
Qed.

(** ** The returned string *)

Lemma unique_loop_elem (chords : list string) (x : string) :
  x ∈ unique_loop chords [] → x ∈ chords.
Proof.
  rewrite unique_loop_take by (simpl; lia). intros Hx%subseteq_take.
  apply first_occurrences_elem in Hx as [Hx|Hx]; [|done].
  by apply elem_of_nil in Hx.
Qed.

Lemma join_or_none_nonempty (l : list string) :
  Forall (fun name => name ≠ "") l → join_or_none l ≠ Some "".
Proof.
  intros Hl. destruct l as [|x l]; [done|]. simpl.
  inversion Hl as [|? ? Hx _]; subst.
  destruct x as [|c x]; [done|]. by destruct l.
Qed.

Lemma midi_to_chords_vocabulary (fuel : nat) (midi_data : PrettyMIDI) :
  (17 ≤ fuel)%nat →
  ∃ l : list string,
    midi_to_chords fuel midi_data = Done (join_or_none l)
    ∧ (gather_notes midi_data ≠ [] →
       unique_chords_of fuel (gather_notes midi_data) = Done l)
    ∧ Forall (fun name => name ∈ chord_vocabulary) l
    ∧ NoDup l ∧ (length l ≤ 8)%nat.
Proof.
  intros Hfuel. destruct (gather_notes midi_data) as [|n ns] eqn:E.
  - exists []. unfold midi_to_chords, midi_to_chords_try. rewrite E.
    repeat split; [done|constructor|apply NoDup_nil_2|simpl; lia].
  - destruct (midi_to_chords_unique_chords fuel midi_data Hfuel) as (cs & Hcs & Hu & Hr).
    { by rewrite E. }
    exists (unique_loop cs []). rewrite E in Hu, Hcs.
    repeat split; [done|done| | |].
    + pose proof (windowed_chords_invariant
                    (Forall (fun name => name ∈ chord_vocabulary))) as H.
      assert (Hstep : ∀ (c : list string) (n : string),
                Forall (fun name => name ∈ chord_vocabulary) c →
                n ∈ chord_vocabulary →
                Forall (fun name => name ∈ chord_vocabulary) (append_chord (Some n) c)).
      { intros c m Hc Hm. rewrite append_chord_vocabulary by done.
        destruct (differs_from_last m c); [|done].
        apply Forall_app. split; [done|]. by constructor. }
      specialize (H ltac:(constructor) Hstep fuel (n :: ns) ltac:(done)).
      rewrite Hcs in H. apply Forall_forall. intros x Hx%unique_loop_elem.
      by apply (proj1 (Forall_forall _ _) H).
    + apply unique_loop_NoDup, NoDup_nil_2.
    + apply unique_loop_length. simpl. lia.
Qed.

(** X7.  [midi_to_chords] returns [None] or a non-empty string: never the
    empty string, so a caller's truth test on the result only separates
    [None] from a chord string.  The string joins names of the vocabulary. *)
Theorem result_None_or_nonempty :
  ∀ (fuel : nat) (midi_data : PrettyMIDI),
    (17 ≤ fuel)%nat →
    midi_to_chords fuel midi_data ≠ Done (Some "")
    ∧ ∃ l : list string,
        midi_to_chords fuel midi_data = Done (join_or_none l)
        ∧ (gather_notes midi_data ≠ [] →
           unique_chords_of fuel (gather_notes midi_data) = Done l)
        ∧ Forall (fun name => name ∈ chord_vocabulary) l.
Proof.
  intros fuel midi_data Hfuel.
  destruct (midi_to_chords_vocabulary fuel midi_data Hfuel) as (l & Hr & Hu & Hv & _).
  split; [|by exists l].
  rewrite Hr. intros [= H]. revert H. apply join_or_none_nonempty.
  eapply Forall_impl; [exact Hv|]. intros name Hn.
  by destruct (vocabulary_no_separator name Hn).
Qed.

Lemma result_None_or_nonempty_witness :
  midi_to_chords 17 sustained_C ≠ Done (Some "")
  ∧ ∃ l : list string,
      midi_to_chords 17 sustained_C = Done (join_or_none l)
      ∧ (gather_notes sustained_C ≠ [] →
         unique_chords_of 17 (gather_notes sustained_C) = Done l)
      ∧ Forall (fun name => name ∈ chord_vocabulary) l.
Proof. apply (result_None_or_nonempty 17 sustained_C). lia. Defined.

(** ** Which parts of the input matter *)

Lemma gather_notes_concat (midi_data : PrettyMIDI) :
  gather_notes midi_data
  = concat (notes <$> List.filter (fun i => negb (is_drum i)) (instruments midi_data)).
Proof.
  unfold gather_notes.
  enough (Hgen : ∀ acc,
    foldl (fun all_notes instrument =>
             if negb (is_drum instrument) then all_notes ++ notes instrument
             else all_notes) acc (instruments midi_data)
    = acc ++ concat (notes <$> List.filter (fun i => negb (is_drum i))
                       (instruments midi_data)))
    by apply (Hgen []).
  induction (instruments midi_data) as [|i rest IH]; intros acc; simpl.
  - by rewrite app_nil_r.
  - rewrite IH. destruct (negb (is_drum i)); [|done]. simpl.
    by rewrite app_assoc.
Qed.

(** X8.  Drum instruments never influence the result, and neither does the
    grouping of the notes into instruments: only the concatenation of the
    notes of the non-drum instruments is read. *)
Theorem drums_and_grouping_ignored :
  ∀ (fuel : nat) (midi_data : PrettyMIDI),
    gather_notes midi_data
    = concat (notes <$> List.filter (fun i => negb (is_drum i)) (instruments midi_data))
    ∧ midi_to_chords fuel midi_data
      = midi_to_chords fuel
          {| instruments := List.filter (fun i => negb (is_drum i)) (instruments midi_data) |}
    ∧ midi_to_chords fuel midi_data
      = midi_to_chords fuel (one_track (gather_notes midi_data)).
Proof.
  intros fuel midi_data. split; [apply gather_notes_concat|].
  assert (Hg : ∀ m m', gather_notes m = gather_notes m' →
                       midi_to_chords fuel m = midi_to_chords fuel m').
  { intros m m' Hg. unfold midi_to_chords, midi_to_chords_try. by rewrite Hg. }
  split; apply Hg.
  - rewrite !gather_notes_concat. cbn [instruments]. f_equal. f_equal.
    induction (instruments midi_data) as [|i rest IH]; [done|]. simpl.
    destruct (negb (is_drum i)) eqn:E; simpl; rewrite ?E; [by f_equal|done].
  - rewrite (gather_notes_concat (one_track _)). simpl. by rewrite app_nil_r.
Qed.

Lemma gather_notes_same_class (l l' : list Instrument) :
  Forall2 (fun i i' => is_drum i = is_drum i' ∧ Forall2 same_class (notes i) (notes i'))
    l l' →
  Forall2 same_class (gather_notes {| instruments := l |})
    (gather_notes {| instruments := l' |}).
Proof.
  rewrite !gather_notes_concat. cbn [instruments].
  induction 1 as [|i i' l l' [Hd Hn] Hl IH]; simpl; [constructor|].
  rewrite <- Hd. destruct (negb (is_drum i)); [|done]. simpl.
  by apply Forall2_app.
Qed.

(** X9.  The octave of a note never matters: two inputs whose instruments
    agree on the drum flag and whose notes agree, one by one, on start, end
    and pitch class give the same result. *)
Theorem octaves_ignored :
  ∀ (fuel : nat) (midi_data midi_data' : PrettyMIDI),
    Forall2 (fun i i' => is_drum i = is_drum i'
                         ∧ Forall2 same_class (notes i) (notes i'))
      (instruments midi_data) (instruments midi_data') →
    midi_to_chords fuel midi_data = midi_to_chords fuel midi_data'.
Proof.
  intros fuel [l] [l'] Hsame. cbn [instruments] in Hsame.
  apply gather_notes_same_class in Hsame.
  unfold midi_to_chords, midi_to_chords_try, unique_chords_of.
  rewrite (windowed_chords_same_class fuel _ _ Hsame).
  destruct Hsame; done.
Qed.

Lemma octaves_ignored_witness :
  midi_to_chords 17 (one_track alternating_C_G_high)
  = midi_to_chords 17 alternating_C_G.
Proof.
  apply (octaves_ignored 17 (one_track alternating_C_G_high) alternating_C_G).
  repeat constructor.
Defined.

(** X10.  A recording with fewer than three notes outside the drum
    instruments yields [None]. *)
Theorem fewer_than_three_notes_None :
  ∀ (fuel : nat) (midi_data : PrettyMIDI),
    (17 ≤ fuel)%nat → (length (gather_notes midi_data) < 3)%nat →
    midi_to_chords fuel midi_data = Done None.
Proof.
  intros fuel midi_data Hfuel Hlen.
  destruct (gather_notes midi_data) as [|n ns] eqn:E.
  - unfold midi_to_chords, midi_to_chords_try. by rewrite E.
  - assert (Hfew : no_window_collects_three (n :: ns)).
    { intros T _ i _. unfold window_notes_at.
      rewrite collect_window_notes_filter, length_fmap.
      pose proof (filter_length (note_in_window (nQ i * window_size_of T) (window_size_of T))
                    (Py.sorted_by start (n :: ns))) as Hf.
      rewrite (Permutation_length (sorted_by_perm start (n :: ns))) in Hf. lia. }
    pose proof (windowed_chords_none fuel (n :: ns) Hfuel ltac:(done) Hfew) as Hcs.
    unfold midi_to_chords, midi_to_chords_try, unique_chords_of. by rewrite E, Hcs.
Qed.

Lemma fewer_than_three_notes_None_witness :
  midi_to_chords 17 two_notes = Done None.
Proof.
  apply (fewer_than_three_notes_None 17 two_notes).
  - lia.
  - simpl. lia.
Defined.

(** ** Reading the chord string back *)

Example strip_examples :
  PyStr.strip (String "009" "  C#m " +:+ String "010" "") = "C#m" ∧ PyStr.strip "   " = "" ∧ PyStr.strip "a b" = "a b".
Proof. repeat split; reflexivity. Qed.

Example split_examples :
  PyStr.split_dash "C - G - Am" = ["C"; "G"; "Am"]
  ∧ PyStr.split_dash "" = [""]
  ∧ PyStr.split_dash "C -  - G" = ["C"; ""; "G"]
  ∧ PyStr.split_dash "C-G - " = ["C-G"; ""]
  ∧ PyStr.split_dash " -  - " = [""; ""; ""]
  ∧ PyStr.split_dash " - - " = [""; "- "]
  ∧ PyStr.split_char "a" "banana" = ["b"; "n"; "n"; ""].
Proof. repeat split; reflexivity. Qed.

Lemma split_dash_nonspace (c : ascii) (s : string) :
  c ≠ " "%char →
  PyStr.split_dash (String c s) = PyStr.cons_char c (PyStr.split_dash s).
Proof.
  intros Hc. cbn [PyStr.split_dash]. destruct s as [|c2 [|c3 rest]]; try done.
  by replace (Ascii.eqb c " ") with false by (symmetry; by apply Ascii.eqb_neq).
Qed.

Lemma split_dash_separator (s : string) :
  PyStr.split_dash (" - " +:+ s) = "" :: PyStr.split_dash s.
Proof. reflexivity. Qed.

Lemma split_dash_append (x s : string) :
  Forall (fun c => c ≠ " "%char) (list_ascii_of_string x) →
  PyStr.split_dash (x +:+ s)
  = match PyStr.split_dash s with
    | [] => [x]
    | f :: fs => (x +:+ f) :: fs
    end.
Proof.
  assert (Hcons : ∀ t : string, PyStr.split_dash t ≠ []).
  { induction t as [|c t IH]; [done|]. cbn [PyStr.split_dash].
    destruct (PyStr.split_dash t) eqn:E; [done|].
    destruct t as [|c2 [|c3 rest]]; try done.
    by destruct (_ && _). }
  induction x as [|c x IH]; intros Hx.
  - change ("" +:+ s) with s.
    destruct (PyStr.split_dash s) eqn:E; [by destruct (Hcons s)|done].
  - inversion Hx as [|? ? Hc Hx']; subst.
    change (String c x +:+ s) with (String c (x +:+ s)).
    rewrite split_dash_nonspace by done. rewrite (IH Hx').
    by destruct (PyStr.split_dash s).
Qed.

Lemma append_empty_r (s : string) : s +:+ "" = s.
Proof.
  induction s as [|c s IH]; [done|].
  change (String c s +:+ "") with (String c (s +:+ "")). by rewrite IH.
Qed.

Lemma split_dash_concat (l : list string) :
  l ≠ [] →
  Forall (fun x => Forall (fun c => c ≠ " "%char) (list_ascii_of_string x)) l →
  PyStr.split_dash (String.concat " - " l) = l.
Proof.
  induction l as [|x l IH]; [done|]. intros _ Hl.
  inversion Hl as [|? ? Hx Hl']; subst. destruct l as [|y l].
  - cbn [String.concat]. rewrite <- (append_empty_r x) at 1.
    rewrite split_dash_append by done. cbn [PyStr.split_dash].
    by rewrite append_empty_r.
  - change (String.concat " - " (x :: y :: l))
      with (x +:+ (" - " +:+ String.concat " - " (y :: l))).
    rewrite split_dash_append, split_dash_separator by done.
    rewrite IH by done. by rewrite append_empty_r.
Qed.

Lemma strip_vocabulary (name : string) :
  name ∈ chord_vocabulary → PyStr.strip name = name.
Proof.
  intros Hin.
  assert (Hall : forallb (fun n : string => String.eqb (PyStr.strip n) n)
                   chord_vocabulary = true) by (vm_compute; reflexivity).
  rewrite forallb_forall in Hall.
  by apply list_elem_of_In, Hall, String.eqb_eq in Hin.
Qed.

Lemma progression_chords_concat (l : list string) :
  l ≠ [] → Forall (fun name => name ∈ chord_vocabulary) l →
  progression_chords (String.concat " - " l) = l.
Proof.
  intros Hne Hv. unfold progression_chords. rewrite split_dash_concat; [|done|].
  - induction Hv as [|x l Hx Hl IH]; [done|].
    rewrite fmap_cons, strip_vocabulary by done. f_equal.
    destruct l; [done|]. by apply IH.
  - eapply Forall_impl; [exact Hv|]. intros name Hn.
    by destruct (vocabulary_no_separator name Hn).
Qed.

(** X11.  Round trip: splitting the string [midi_to_chords] returns at
    [" - "] and stripping the pieces, as the tablature generator does, gives
    back the list of chords that was joined. *)
Theorem progression_round_trip :
  ∀ (fuel : nat) (midi_data : PrettyMIDI) (s : string),
    (17 ≤ fuel)%nat → midi_to_chords fuel midi_data = Done (Some s) →
    ∃ l : list string,
      unique_chords_of fuel (gather_notes midi_data) = Done l
      ∧ s = String.concat " - " l
      ∧ progression_chords s = l.
Proof.
  intros fuel midi_data s Hfuel Hs.
  destruct (midi_to_chords_vocabulary fuel midi_data Hfuel) as (l & Hr & Hu & Hv & _).
  rewrite Hs in Hr. exists l.
  destruct l as [|x l]; [done|].
  assert (Hcat : s = String.concat " - " (x :: l))
    by (cbn [join_or_none] in Hr; congruence).
  split.
  - apply Hu. intros Hnil. unfold midi_to_chords, midi_to_chords_try in Hs.
    by rewrite Hnil in Hs.
  - split; [done|]. rewrite Hcat. by apply progression_chords_concat.
Qed.

Lemma progression_round_trip_witness :
  ∃ l : list string,
    unique_chords_of 17 (gather_notes alternating_C_G) = Done l
    ∧ "C - G" = String.concat " - " l
    ∧ progression_chords "C - G" = l.
Proof.
  apply (progression_round_trip 17 alternating_C_G "C - G").
  - lia.
  - vm_compute. reflexivity.
Defined.

(** ** [parse_lab_file] *)

Example parse_lab_example :
  McGill.parse_lab_lines
    [ lab_line ["0.0"; "1.5"; "N"]; lab_line ["1.5"; "3.0"; "C:maj"]; lab_line [];
      lab_line ["3.0"; "4.5"; "G:maj"]; lab_line ["4.5"; "6.0"; "C:maj"];
      lab_line ["no tabs here"] ]
  = Some "C:maj - G:maj".
Proof. reflexivity. Qed.

(** An empty third field followed by a fourth is kept as a label, and the
    result is then the empty string. *)
Example parse_lab_empty_label :
  McGill.parse_lab_lines [ lab_line ["0"; "1"; ""; "x"] ] = Some "".
Proof. reflexivity. Qed.

Lemma lab_step_label (chords : list string) (line : string) :
  McGill.lab_step chords line
  = match lab_label line with
    | None => chords
    | Some label =>
        if String.eqb label "N" then chords
        else if bool_decide (label ∈ chords) then chords else chords ++ [label]
    end.
Proof.
  unfold McGill.lab_step, lab_label.
  destruct (String.eqb (PyStr.strip line) ""); [done|]. cbn [negb].
  destruct (3 <=? length _)%nat; [|done].
  destruct (String.eqb _ "N"); [done|]. cbn [negb andb].
  by case_bool_decide.
Qed.

Lemma lab_loop_first_occurrences (lines seen : list string) :
  foldl McGill.lab_step seen lines = first_occurrences seen (lab_labels lines).
Proof.
  revert seen. induction lines as [|line lines IH]; intros seen; [done|].
  cbn [foldl]. rewrite IH, lab_step_label. unfold lab_labels. cbn [omap list_omap].
  destruct (lab_label line) as [label|]; [|done]. cbn [List.filter].
  destruct (String.eqb label "N"); [done|]. cbn [negb first_occurrences].
  by case_bool_decide.
Qed.

Lemma first_occurrences_nil (l : list string) :
  first_occurrences [] l = [] ↔ l = [].
Proof.
  split; [|by intros ->]. destruct l as [|x l]; [done|]. intros H.
  assert (Hx : x ∈ first_occurrences [] (x :: l))
    by (apply first_occurrences_elem; right; left).
  rewrite H in Hx. by apply elem_of_nil in Hx.
Qed.

Lemma parse_lab_lines_labels (lines : list string) :
  McGill.parse_lab_lines lines
  = join_or_none (take 8 (first_occurrences [] (lab_labels lines))).
Proof.
  unfold McGill.parse_lab_lines. rewrite lab_loop_first_occurrences.
  by destruct (first_occurrences [] (lab_labels lines)).
Qed.

(** X12.  [parse_lab_file] keeps the labels exactly as the final pass of
    [midi_to_chords] keeps chords: on the labels of the file other than [N]
    it returns what that pass returns, the first 8 distinct ones joined, or
    [None] when there is none. *)
Theorem parse_lab_same_final_pass :
  ∀ lines : list string,
    McGill.parse_lab_lines lines = join_or_none (unique_loop (lab_labels lines) [])
    ∧ McGill.parse_lab_lines lines
      = join_or_none (take 8 (first_occurrences [] (lab_labels lines)))
    ∧ (McGill.parse_lab_lines lines = None ↔ lab_labels lines = []).
Proof.
  intros lines. rewrite unique_loop_take by (simpl; lia).
  split; [apply parse_lab_lines_labels|]. split; [apply parse_lab_lines_labels|].
  rewrite parse_lab_lines_labels, <- first_occurrences_nil.
  by destruct (first_occurrences [] (lab_labels lines)).
Qed.

Lemma lab_labels_elem (lines : list string) (label : string) :
  label ∈ lab_labels lines
  ↔ label ≠ "N" ∧ ∃ line : string, line ∈ lines ∧ lab_label line = Some label.
Proof.
  unfold lab_labels. rewrite list_elem_of_In, filter_In, <- list_elem_of_In.
  rewrite list_elem_of_omap, negb_true_iff, String.eqb_neq. tauto.
Qed.

(** X13.  A string returned by [parse_lab_file] joins at most 8 labels that
    are pairwise distinct, none of them [N], each the stripped third
    tab-separated field of a line of the file. *)
Theorem parse_lab_result :
  ∀ (lines : list string) (s : string),
    McGill.parse_lab_file (Some lines) = Some s →
    ∃ l : list string,
      s = String.concat " - " l ∧ l ≠ [] ∧ NoDup l ∧ (length l ≤ 8)%nat
      ∧ ∀ label : string, label ∈ l →
          label ≠ "N"
          ∧ ∃ line : string,
              line ∈ lines
              ∧ PyStr.strip line ≠ ""
              ∧ (3 ≤ length (PyStr.split_char McGill.TAB (PyStr.strip line)))%nat
              ∧ label
                = PyStr.strip (nth 2 (PyStr.split_char McGill.TAB (PyStr.strip line)) "").
Proof.
  intros lines s Hs. cbn [McGill.parse_lab_file] in Hs.
  rewrite parse_lab_lines_labels in Hs.
  set (l := take 8 (first_occurrences [] (lab_labels lines))) in *.
  exists l. destruct l as [|x l'] eqn:El; [done|]. rewrite <- El in *.
  split; [rewrite El in Hs |- *; cbn [join_or_none] in Hs; congruence|].
  split; [by rewrite El|]. split; [|split].
  - subst l. eapply sublist_NoDup; [|apply sublist_take].
    apply first_occurrences_NoDup, NoDup_nil_2.
  - subst l. rewrite length_take. lia.
  - intros label Hl. subst l. apply subseteq_take in Hl.
    apply first_occurrences_elem in Hl as [Hl|Hl]; [by apply elem_of_nil in Hl|].
    apply lab_labels_elem in Hl as (HN & line & Hline & Hlabel).
    split; [done|]. exists line. split; [done|].
    unfold lab_label in Hlabel.
    destruct (String.eqb (PyStr.strip line) "") eqn:E; [done|].
    apply String.eqb_neq in E. split; [done|].
    destruct (3 <=? length _)%nat eqn:E3; [|done].
    apply Nat.leb_le in E3. split; [done|]. congruence.
Qed.

Lemma parse_lab_result_witness :
  ∃ l : list string,
    "C:maj - G:maj" = String.concat " - " l ∧ l ≠ [] ∧ NoDup l ∧ (length l ≤ 8)%nat
    ∧ ∀ label : string, label ∈ l →
        label ≠ "N"
        ∧ ∃ line : string,
            line ∈ [ lab_line ["0.0"; "1.5"; "N"]; lab_line ["1.5"; "3.0"; "C:maj"];
                     lab_line ["3.0"; "4.5"; "G:maj"]; lab_line ["4.5"; "6.0"; "C:maj"] ]
            ∧ PyStr.strip line ≠ ""
            ∧ (3 ≤ length (PyStr.split_char McGill.TAB (PyStr.strip line)))%nat
            ∧ label
              = PyStr.strip (nth 2 (PyStr.split_char McGill.TAB (PyStr.strip line)) "").
Proof.
  apply (parse_lab_result
           [ lab_line ["0.0"; "1.5"; "N"]; lab_line ["1.5"; "3.0"; "C:maj"];
             lab_line ["3.0"; "4.5"; "G:maj"]; lab_line ["4.5"; "6.0"; "C:maj"] ]
           "C:maj - G:maj").
  reflexivity.
Defined.

Lemma lab_labels_app (l1 l2 : list string) :
  lab_labels (l1 ++ l2) = lab_labels l1 ++ lab_labels l2.
Proof. unfold lab_labels. by rewrite omap_app, List.filter_app. Qed.

(** X14.  Blank lines, lines with fewer than three tab-separated fields and
    lines labelled [N] do not change the result, wherever they stand. *)
Theorem parse_lab_ignores_lines :
  ∀ (before after : list string) (line : string),
    lab_label line = None ∨ lab_label line = Some "N" →
    McGill.parse_lab_lines (before ++ line :: after)
    = McGill.parse_lab_lines (before ++ after).
Proof.
  intros before after line Hline. rewrite !parse_lab_lines_labels.
  change (line :: after) with ([line] ++ after). rewrite !lab_labels_app.
  replace (lab_labels [line]) with (@nil string); [done|].
  unfold lab_labels. cbn [omap list_omap]. by destruct Hline as [->| ->].
Qed.

Lemma parse_lab_ignores_lines_witness :
  McGill.parse_lab_lines
    ([ lab_line ["0"; "1"; "C"] ] ++ lab_line ["1"; "2"; " N "] :: [ lab_line ["2"; "3"; "G"] ])
  = McGill.parse_lab_lines ([ lab_line ["0"; "1"; "C"] ] ++ [ lab_line ["2"; "3"; "G"] ]).
Proof.
  apply (parse_lab_ignores_lines [ lab_line ["0"; "1"; "C"] ] [ lab_line ["2"; "3"; "G"] ]
           (lab_line ["1"; "2"; " N "])).
  right. reflexivity.
Defined.

(** ** [load_mcgill_annotations] *)

Lemma load_fold_sound (entries : list McGill.lab_folder) (acc : gmap string string)
    (name s : string) :
  foldl McGill.load_step acc entries !! name = Some s →
  acc !! name = Some s
  ∨ (s ≠ ""
     ∧ ∃ e : McGill.lab_folder,
         e ∈ entries ∧ McGill.folder_name e = name
         ∧ McGill.folder_is_dir e = true
         ∧ ∃ file, McGill.majmin_lab e = Some file
                   ∧ McGill.parse_lab_file file = Some s).
Proof.
  revert acc. induction entries as [|e entries IH]; intros acc Hs; [by left|].
  cbn [foldl] in Hs. destruct (IH _ Hs) as [Hacc|(Hne & e' & He' & Hrest)].
  - unfold McGill.load_step in Hacc.
    destruct (McGill.folder_is_dir e) eqn:Ed; [|by left].
    destruct (McGill.majmin_lab e) as [file|] eqn:Ef; [|by left].
    destruct (McGill.parse_lab_file file) as [chords|] eqn:Ep; [|by left].
    destruct (String.eqb chords "") eqn:Ec; [by left|]. cbn [negb] in Hacc.
    destruct (decide (McGill.folder_name e = name)) as [Hn|Hn].
    + rewrite Hn, lookup_insert_eq in Hacc. injection Hacc as ->.
      right. split; [by apply String.eqb_neq|].
      exists e. split; [left|]. eauto.
    + rewrite lookup_insert_ne in Hacc by done. by left.
  - right. split; [done|]. exists e'. split; [by right|done].
Qed.

Lemma load_fold_other (entries : list McGill.lab_folder) (acc : gmap string string)
    (name : string) :
  name ∉ McGill.folder_name <$> entries →
  foldl McGill.load_step acc entries !! name = acc !! name.
Proof.
  revert acc. induction entries as [|e entries IH]; intros acc Hn; [done|].
  rewrite fmap_cons, not_elem_of_cons in Hn. destruct Hn as [Hne Hn].
  cbn [foldl]. rewrite IH by done. unfold McGill.load_step.
  destruct (McGill.folder_is_dir e); [|done].
  destruct (McGill.majmin_lab e) as [file|]; [|done].
  destruct (McGill.parse_lab_file file) as [chords|]; [|done].
  destruct (negb _); [|done]. by rewrite lookup_insert_ne.
Qed.

(** X15.  [load_mcgill_annotations] stores under a folder name only the
    result of [parse_lab_file] on that folder's [majmin.lab], and never
    [None] or the empty string; with the names of the listing distinct, every
    folder whose file gives a non-empty string is stored.  A missing
    annotations directory gives the empty dictionary. *)
Theorem mcgill_annotations_lookup :
  McGill.load_mcgill_annotations None = ∅
  ∧ ∀ (entries : list McGill.lab_folder) (name s : string),
      (McGill.load_mcgill_annotations (Some entries) !! name = Some s →
       s ≠ ""
       ∧ ∃ e : McGill.lab_folder,
           e ∈ entries ∧ McGill.folder_name e = name
           ∧ McGill.folder_is_dir e = true
           ∧ ∃ file, McGill.majmin_lab e = Some file
                     ∧ McGill.parse_lab_file file = Some s)
      ∧ (NoDup (McGill.folder_name <$> entries) →
         ∀ (e : McGill.lab_folder) file,
           e ∈ entries → McGill.folder_name e = name →
           McGill.folder_is_dir e = true →
           McGill.majmin_lab e = Some file →
           McGill.parse_lab_file file = Some s → s ≠ "" →
           McGill.load_mcgill_annotations (Some entries) !! name = Some s).
Proof.
  split; [done|]. intros entries name s. split.
  - intros Hs. cbn [McGill.load_mcgill_annotations] in Hs.
    apply load_fold_sound in Hs as [Hs|Hs]; [|done]. by rewrite lookup_empty in Hs.
  - intros Hnd e file He Hname Hdir Hfile Hparse Hne.
    cbn [McGill.load_mcgill_annotations].
    apply list_elem_of_split in He as (l1 & l2 & ->).
    rewrite fmap_app, fmap_cons in Hnd.
    apply NoDup_app in Hnd as (_ & _ & Hnd). apply NoDup_cons in Hnd as [Hnot _].
    rewrite foldl_app. cbn [foldl]. rewrite load_fold_other by (by rewrite <- Hname).
    unfold McGill.load_step. rewrite Hdir, Hfile, Hparse.
    replace (String.eqb s "") with false by (symmetry; by apply String.eqb_neq).
    cbn [negb]. by rewrite Hname, lookup_insert_eq.
Qed.

Lemma mcgill_annotations_lookup_witness :
  McGill.load_mcgill_annotations
    (Some [ {| McGill.folder_name := "0003"; McGill.folder_is_dir := true;
               McGill.majmin_lab := Some (Some [ lab_line ["0"; "1"; "A:min"] ]) |} ])
    !! "0003" = Some "A:min".
Proof.
  eapply (proj2 (proj2 mcgill_annotations_lookup _ "0003" "A:min")).
  - repeat constructor. intros H. by apply elem_of_nil in H.
  - left.
  - reflexivity.
  - reflexivity.
  - reflexivity.
  - reflexivity.
  - discriminate.
Defined.

(** ** [process_all_midis] *)

Section ProcessFacts.

Variable extract : string → option string.
Variable matcher : string → option song_row.

Lemma process_step_cases (acc : gmap Z chord_result) (midi_file : string) :
  Process.step extract matcher acc midi_file = acc
  ∨ ∃ (chords : string) (row : song_row),
      extract midi_file = Some chords ∧ chords ≠ ""
      ∧ matcher midi_file = Some row
      ∧ Process.step extract matcher acc midi_file
        = <[song_id row := result_for midi_file chords row]> acc.
Proof.
  unfold Process.step.
  destruct (extract midi_file) as [chords|] eqn:Ee; [|by left].
  destruct (String.eqb chords "") eqn:Ec; [by left|]. cbn [negb].
  destruct (matcher midi_file) as [row|] eqn:Em; [|by left].
  right. exists chords, row. apply String.eqb_neq in Ec. done.
Qed.

Lemma process_fold_sound (files : list string) (acc : gmap Z chord_result)
    (id : Z) (r : chord_result) :
  foldl (Process.step extract matcher) acc files !! id = Some r →
  acc !! id = Some r
  ∨ ∃ (midi_file : string) (row : song_row),
      midi_file ∈ files ∧ extract midi_file = Some (res_chords r)
      ∧ res_chords r ≠ "" ∧ matcher midi_file = Some row
      ∧ song_id row = id ∧ r = result_for midi_file (res_chords r) row.
Proof.
  revert acc. induction files as [|f files IH]; intros acc Hr; [by left|].
  cbn [foldl] in Hr. destruct (IH _ Hr) as [Hacc|(f' & row & Hf' & Hrest)].
  - destruct (process_step_cases acc f) as [Hs|(chords & row & He & Hc & Hm & Hs)];
      rewrite Hs in Hacc; [by left|].
    destruct (decide (song_id row = id)) as [Hid|Hid].
    + rewrite Hid, lookup_insert_eq in Hacc. injection Hacc as <-.
      right. exists f, row. split; [left|]. done.
    + rewrite lookup_insert_ne in Hacc by done. by left.
  - right. exists f', row. split; [by right|done].
Qed.

Lemma process_fold_size (files : list string) (acc : gmap Z chord_result) :
  (size (foldl (Process.step extract matcher) acc files) ≤ size acc + length files)%nat.
Proof.
  revert acc. induction files as [|f files IH]; intros acc; cbn [foldl length]; [lia|].
  etransitivity; [apply IH|].
  destruct (process_step_cases acc f) as [->|(chords & row & _ & _ & _ & ->)]; [lia|].
  rewrite map_size_insert. destruct (acc !! song_id row); cbn [id]; lia.
Qed.

Lemma files_to_process_subset (midi_files files : list string) (limit : option Z) :
  Process.files_to_process midi_files limit = Some files →
  files ⊆ midi_files ∧ (length files ≤ length midi_files)%nat.
Proof.
  unfold Process.files_to_process. destruct midi_files as [|f fs]; [done|].
  set (l := f :: fs).
  assert (Hslice : ∀ k, Process.slice_to l k ⊆ l
                        ∧ (length (Process.slice_to l k) ≤ length l)%nat).
  { intros k. unfold Process.slice_to.
    destruct (k <? 0); (split; [apply subseteq_take|rewrite length_take; lia]). }
  destruct limit as [k|]; [destruct (k =? 0)|]; intros [= <-]; auto.
Qed.

End ProcessFacts.

Lemma process_all_midis_entries_aux (extract : string → option string)
    (matcher : string → option song_row) (midi_files : list string)
    (limit : option Z) (id : Z) (r : chord_result) :
  Process.process_all_midis extract matcher midi_files limit !! id = Some r →
  ∃ midi_file : string, extract midi_file = Some (res_chords r).
Proof.
  unfold Process.process_all_midis.
  destruct (Process.files_to_process midi_files limit) as [files|];
    [|by rewrite lookup_empty].
  intros Hr.
  apply process_fold_sound in Hr as [Hr|(f & row & _ & He & _)];
    [by rewrite lookup_empty in Hr|].
  by exists f.
Qed.

(** X16.  Every entry of the dictionary [process_all_midis] returns comes
    from one of the files: under the id of the song that file matched, with
    the title, artist and year of that song, the file's path, and the
    non-empty chord string extracted from that file.  The dictionary has no
    more entries than there are files. *)
Theorem process_all_midis_entries :
  ∀ (extract : string → option string) (matcher : string → option song_row)
    (midi_files : list string) (limit : option Z),
    (size (Process.process_all_midis extract matcher midi_files limit)
     ≤ length midi_files)%nat
    ∧ ∀ (id : Z) (r : chord_result),
        Process.process_all_midis extract matcher midi_files limit !! id = Some r →
        ∃ (midi_file : string) (row : song_row),
          midi_file ∈ midi_files
          ∧ extract midi_file = Some (res_chords r) ∧ res_chords r ≠ ""
          ∧ matcher midi_file = Some row ∧ song_id row = id
          ∧ res_title r = song_title row ∧ res_artist r = song_artist row
          ∧ res_year r = song_year row ∧ res_midi_file r = midi_file.
Proof.
  intros extract matcher midi_files limit. unfold Process.process_all_midis.
  destruct (Process.files_to_process midi_files limit) as [files|] eqn:E.
  - apply files_to_process_subset in E as [Hsub Hlen]. split.
    + pose proof (process_fold_size extract matcher files ∅) as Hs.
      rewrite map_size_empty in Hs. lia.
    + intros id r Hr.
      apply process_fold_sound in Hr as [Hr|(f & row & Hf & He & Hc & Hm & Hid & Hrr)];
        [by rewrite lookup_empty in Hr|].
      exists f, row. rewrite Hrr at 3 4 5 6. cbn. auto 10.
  - split; [rewrite map_size_empty; lia|]. intros id r Hr.
    by rewrite lookup_empty in Hr.
Qed.

(** X17.  The limit of [process_all_midis]: no limit and the limit 0 both
    process every file; a positive limit [k] processes the first [k] files; a
    negative limit [-k] leaves out the last [k] files. *)
Theorem process_all_midis_limit :
  ∀ (extract : string → option string) (matcher : string → option song_row)
    (midi_files : list string),
    let run := Process.process_all_midis extract matcher in
    run midi_files (Some 0) = run midi_files None
    ∧ (∀ k : nat, (0 < k)%nat →
         run midi_files (Some (Z.of_nat k)) = run (take k midi_files) None)
    ∧ (∀ k : nat, (0 < k)%nat →
         run midi_files (Some (- Z.of_nat k))
         = run (take (length midi_files - k) midi_files) None).
Proof.
  intros extract matcher midi_files run. subst run.
  unfold Process.process_all_midis, Process.files_to_process.
  split; [by destruct midi_files|]. split.
  - intros k Hk. destruct midi_files as [|f fs]; [by rewrite take_nil|].
    replace (Z.of_nat k =? 0) with false by (symmetry; apply Z.eqb_neq; lia).
    unfold Process.slice_to.
    replace (Z.of_nat k <? 0) with false by (symmetry; apply Z.ltb_ge; lia).
    rewrite Nat2Z.id. destruct k as [|k]; [lia|]. done.
  - intros k Hk. destruct midi_files as [|f fs]; [by rewrite take_nil|].
    replace (- Z.of_nat k =? 0) with false by (symmetry; apply Z.eqb_neq; lia).
    unfold Process.slice_to.
    replace (- Z.of_nat k <? 0) with true by (symmetry; apply Z.ltb_lt; lia).
    replace (Z.to_nat (Z.of_nat (length (f :: fs)) + - Z.of_nat k))
      with (length (f :: fs) - k)%nat by lia.
    by destruct (take (length (f :: fs) - k) (f :: fs)).
Qed.

Lemma process_all_midis_limit_witness :
  Process.process_all_midis (fun _ => Some "C - G")
    (fun p => Some {| song_id := Z.of_nat (String.length p); song_title := SqlNull;
                      song_artist := SqlNull; song_year := SqlNull;
                      song_position := SqlNull |})
    ["a"; "bb"; "ccc"] (Some (Z.of_nat 2))
  = Process.process_all_midis (fun _ => Some "C - G")
      (fun p => Some {| song_id := Z.of_nat (String.length p); song_title := SqlNull;
                        song_artist := SqlNull; song_year := SqlNull;
                        song_position := SqlNull |})
      (take 2 ["a"; "bb"; "ccc"]) None.
Proof.
  apply (proj1 (proj2 (process_all_midis_limit _ _ ["a"; "bb"; "ccc"])) 2%nat).
  lia.
Defined.

(** X18.  When several files match the same song, the entry of the last such
    file stands: a file with chords and a match, processed last, is the one
    found under its song's id. *)
Theorem process_all_midis_last_wins :
  ∀ (extract : string → option string) (matcher : string → option song_row)
    (midi_files : list string) (midi_file chords : string) (row : song_row),
    extract midi_file = Some chords → chords ≠ "" →
    matcher midi_file = Some row →
    Process.process_all_midis extract matcher (midi_files ++ [midi_file]) None
      !! song_id row
    = Some {| res_title := song_title row; res_artist := song_artist row;
              res_year := song_year row; res_chords := chords;
              res_midi_file := midi_file |}.
Proof.
  intros extract matcher midi_files midi_file chords row He Hc Hm.
  unfold Process.process_all_midis, Process.files_to_process.
  destruct (midi_files ++ [midi_file]) as [|f fs] eqn:E.
  { by destruct midi_files. }
  rewrite <- E, foldl_snoc. unfold Process.step at 1. rewrite He, Hm.
  replace (String.eqb chords "") with false by (symmetry; by apply String.eqb_neq).
  cbn [negb]. apply lookup_insert_eq.
Qed.

Lemma process_all_midis_last_wins_witness :
  Process.process_all_midis (fun p => Some p) (fun _ => Some hey_jude_row)
    (["C - G"] ++ ["Am - F"]) None
    !! song_id hey_jude_row
  = Some {| res_title := song_title hey_jude_row; res_artist := song_artist hey_jude_row;
            res_year := song_year hey_jude_row; res_chords := "Am - F";
            res_midi_file := "Am - F" |}.
Proof.
  apply (process_all_midis_last_wins (fun p => Some p) (fun _ => Some hey_jude_row)
           ["C - G"] "Am - F" "Am - F" hey_jude_row).
  - reflexivity.
  - discriminate.
  - reflexivity.
Defined.

(** X19.  With the chords of each file extracted by [midi_to_chords], every
    chord string [process_all_midis] stores splits, at [" - "], into at least
    one and at most 8 pairwise distinct names of the vocabulary. *)
Theorem stored_progressions_well_formed :
  ∀ (fuel : nat) (parse : string → option PrettyMIDI)
    (matcher : string → option song_row) (midi_files : list string)
    (limit : option Z) (id : Z) (r : chord_result),
    (17 ≤ fuel)%nat →
    Process.process_all_midis
      (fun path => Process.midi_to_chords_path fuel (parse path))
      matcher midi_files limit !! id = Some r →
    ∃ l : list string,
      progression_chords (res_chords r) = l
      ∧ res_chords r = String.concat " - " l
      ∧ l ≠ [] ∧ NoDup l ∧ (length l ≤ 8)%nat
      ∧ Forall (fun name => name ∈ chord_vocabulary) l.
Proof.
  intros fuel parse matcher midi_files limit id r Hfuel Hr.
  destruct (process_all_midis_entries_aux _ _ _ _ _ _ Hr) as (f & He).
  unfold Process.midi_to_chords_path in He.
  destruct (parse f) as [midi_data|]; [|done].
  destruct (midi_to_chords_vocabulary fuel midi_data Hfuel)
    as (l & Hm & _ & Hv & Hnd & Hlen).
  rewrite Hm in He. exists l. destruct l as [|x l]; [done|].
  assert (Hcat : res_chords r = String.concat " - " (x :: l))
    by (cbn [join_or_none] in He; congruence).
  split; [rewrite Hcat; by apply progression_chords_concat|]. done.
Qed.

Lemma stored_progressions_well_formed_witness :
  ∃ l : list string,
    progression_chords "C - G" = l
    ∧ "C - G" = String.concat " - " l
    ∧ l ≠ [] ∧ NoDup l ∧ (length l ≤ 8)%nat
    ∧ Forall (fun name => name ∈ chord_vocabulary) l.
Proof.
  apply (stored_progressions_well_formed 17 (fun _ => Some alternating_C_G)
           (fun _ => Some hey_jude_row) ["x.mid"] None 7
           (result_for "x.mid" "C - G" hey_jude_row)).
  - lia.
  - vm_compute. reflexivity.
Defined.

(** ** [update_database_with_chords] *)

Lemma update_loop_spec (items : list (Z * chord_result)) (t : Database.songs_table)
    (n : Z) :
  Database.has_chord_column t = true → NoDup items.*1 →
  ∃ t' : Database.songs_table,
    Database.update_loop items (Some t) n
      = Database.DbDone (Some t', n + Z.of_nat (length items))
    ∧ Database.has_chord_column t' = true
    ∧ ∀ id : Z,
        Database.rows t' !! id
        = (fun r =>
             match (list_to_map items : gmap Z chord_result) !! id with
             | Some song_data =>
                 Database.set_chord_progression (SqlText (res_chords song_data)) r
             | None => r
             end) <$> Database.rows t !! id.
Proof.
  revert t n. induction items as [|[k d] items IH]; intros t n Hcol Hnd.
  - exists t. cbn [Database.update_loop length]. split; [f_equal; f_equal; lia|].
    split; [done|]. intros id. rewrite list_to_map_nil, lookup_empty.
    by destruct (Database.rows t !! id).
  - rewrite fmap_cons in Hnd. apply NoDup_cons in Hnd as [Hk Hnd].
    cbn [Database.update_loop]. unfold Database.update_chord_progression.
    rewrite Hcol.
    destruct (IH {| Database.has_chord_column := true;
                    Database.rows :=
                      alter (Database.set_chord_progression (SqlText (res_chords d))) k
                        (Database.rows t) |} (n + 1) eq_refl Hnd)
      as (t' & Hrun & Hcol' & Hrows).
    exists t'. split; [rewrite Hrun; cbn [length]; f_equal; f_equal; lia|].
    split; [done|]. intros id. rewrite Hrows, list_to_map_cons. cbn [Database.rows].
    destruct (decide (k = id)) as [<-|Hne].
    + rewrite lookup_alter_eq, lookup_insert_eq.
      rewrite (not_elem_of_list_to_map_1 _ _ Hk).
      by destruct (Database.rows t !! k).
    + by rewrite lookup_alter_ne, lookup_insert_ne.
Qed.

Lemma ensure_chord_column_spec (t : Database.songs_table) :
  ∃ t' : Database.songs_table,
    Database.ensure_chord_column (Some t) = Some t'
    ∧ Database.has_chord_column t' = true
    ∧ ∀ id : Z,
        Database.rows t' !! id
        = (fun r => if Database.has_chord_column t then r
                    else Database.set_chord_progression SqlNull r)
          <$> Database.rows t !! id.
Proof.
  unfold Database.ensure_chord_column, Database.add_chord_column.
  destruct (Database.has_chord_column t) eqn:E.
  - exists t. split; [done|]. split; [done|]. intros id.
    by destruct (Database.rows t !! id).
  - eexists. split; [reflexivity|]. split; [done|]. intros id.
    cbn [Database.rows]. by rewrite lookup_fmap.
Qed.

Lemma update_database_spec :
  ∀ (t : Database.songs_table) (midi_chord_results : gmap Z chord_result)
    (mcgill_chord_data : gmap string string),
    ∃ t' : Database.songs_table,
      Database.update_database_with_chords (Some t) midi_chord_results mcgill_chord_data
        = Database.DbDone (Some t', Z.of_nat (size midi_chord_results))
      ∧ Database.has_chord_column t' = true
      ∧ ∀ id : Z,
          Database.rows t' !! id
          = (fun r =>
               Database.set_chord_progression
                 (expected_chord_progression t midi_chord_results id r) r)
            <$> Database.rows t !! id.
Proof.
  intros t results mcgill. unfold Database.update_database_with_chords.
  destruct (ensure_chord_column_spec t) as (t1 & -> & Hcol1 & Hrows1).
  destruct (update_loop_spec (map_to_list results) t1 0 Hcol1
              (NoDup_fst_map_to_list results)) as (t' & -> & Hcol' & Hrows').
  exists t'. rewrite length_map_to_list.
  split; [f_equal; f_equal; lia|]. split; [done|].
  intros id. rewrite Hrows', Hrows1, list_to_map_to_list.
  unfold expected_chord_progression.
  destruct (Database.rows t !! id) as [r|]; [|done]. cbn [fmap option_fmap option_map].
  f_equal. destruct (results !! id) as [d|], (Database.has_chord_column t);
    by destruct r.
Qed.

(** X20.  On a database that has the table, [update_database_with_chords]
    raises nothing and returns the number of entries of the MIDI results,
    whether or not their ids are in the table.  It adds and removes no row
    and changes no column but [chord_progression], which holds the chords of
    the result stored under the row's id, else its old value ([NULL] where
    the column is new).  The McGill data changes nothing. *)
Theorem update_database_frame :
  ∀ (t : Database.songs_table) (midi_chord_results : gmap Z chord_result)
    (mcgill_chord_data : gmap string string),
    ∃ t' : Database.songs_table,
      Database.update_database_with_chords (Some t) midi_chord_results mcgill_chord_data
        = Database.DbDone (Some t', Z.of_nat (size midi_chord_results))
      ∧ Database.has_chord_column t' = true
      ∧ dom (Database.rows t') = dom (Database.rows t)
      ∧ ∀ id : Z,
          Database.rows t' !! id
          = (fun r =>
               Database.set_chord_progression
                 (expected_chord_progression t midi_chord_results id r) r)
            <$> Database.rows t !! id.
Proof.
  intros t results mcgill.
  destruct (update_database_spec t results mcgill) as (t' & Hrun & Hcol & Hrows).
  exists t'. split; [done|]. split; [done|]. split; [|done].
  apply set_eq. intros id. rewrite !elem_of_dom, Hrows.
  by rewrite fmap_is_Some.
Qed.

(** X21.  Without the table [bimmuda_songs]: empty MIDI results leave the
    database as it is and give 0; any entry makes the first [UPDATE] fail,
    and the error escapes the method. *)
Theorem update_database_missing_table :
  ∀ (midi_chord_results : gmap Z chord_result)
    (mcgill_chord_data : gmap string string),
    Database.update_database_with_chords None midi_chord_results mcgill_chord_data
    = if decide (midi_chord_results = ∅) then Database.DbDone (None, 0)
      else Database.OperationalError.
Proof.
  intros results mcgill. unfold Database.update_database_with_chords.
  cbn [Database.ensure_chord_column Database.add_chord_column].
  destruct (decide (results = ∅)) as [->|Hne].
  - by rewrite map_to_list_empty.
  - destruct (map_to_list results) as [|[k d] items] eqn:E.
    + by apply map_to_list_empty_iff in E.
    + done.
Qed.

(** X22.  Running [update_database_with_chords] a second time with the same
    results returns the same number and leaves the database as the first run
    left it. *)
Theorem update_database_idempotent :
  ∀ (t t' : Database.songs_table) (n : Z)
    (midi_chord_results : gmap Z chord_result)
    (mcgill_chord_data mcgill_chord_data' : gmap string string),
    Database.update_database_with_chords (Some t) midi_chord_results mcgill_chord_data
      = Database.DbDone (Some t', n) →
    ∃ t'' : Database.songs_table,
      Database.update_database_with_chords (Some t') midi_chord_results mcgill_chord_data'
        = Database.DbDone (Some t'', n)
      ∧ Database.has_chord_column t'' = Database.has_chord_column t'
      ∧ Database.rows t'' = Database.rows t'.
Proof.
  intros t t' n results mcgill mcgill' Hrun.
  destruct (update_database_spec t results mcgill) as (t1 & Hrun1 & Hcol1 & Hrows1).
  rewrite Hrun1 in Hrun. injection Hrun as <- <-.
  destruct (update_database_spec t1 results mcgill') as (t2 & Hrun2 & Hcol2 & Hrows2).
  exists t2. split; [done|]. split; [congruence|].
  apply map_eq. intros id. rewrite Hrows2, Hrows1.
  destruct (Database.rows t !! id) as [r|]; [|done].
  cbn [fmap option_fmap option_map]. f_equal.
  unfold expected_chord_progression. rewrite Hcol1.
  by destruct (results !! id).
Qed.

Example update_database_example :
  Database.update_database_with_chords (Some one_song_table)
    {[ 7 := result_for "x.mid" "C - G" hey_jude_row;
       8 := result_for "y.mid" "Am" hey_jude_row ]} ∅
  = Database.DbDone (Some one_song_table_with_chords, 2).
Proof. vm_compute. reflexivity. Qed.

Lemma update_database_idempotent_witness :
  ∃ t'' : Database.songs_table,
    Database.update_database_with_chords (Some one_song_table_with_chords)
      {[ 7 := result_for "x.mid" "C - G" hey_jude_row ]} ∅
    = Database.DbDone (Some t'', 1)
    ∧ Database.has_chord_column t''
      = Database.has_chord_column one_song_table_with_chords
    ∧ Database.rows t'' = Database.rows one_song_table_with_chords.
Proof.
  apply (update_database_idempotent one_song_table one_song_table_with_chords 1
           {[ 7 := result_for "x.mid" "C - G" hey_jude_row ]} ∅ ∅).
  vm_compute. reflexivity.
Defined.

(** ** A chord held for the whole recording *)

Lemma filter_all {A : Type} (f : A → bool) (l : list A) :
  (∀ x : A, x ∈ l → f x = true) → List.filter f l = l.
Proof.
  induction l as [|x l IH]; intros Hall; [done|]. simpl.
  rewrite (Hall x) by left. f_equal. apply IH. intros y Hy. apply Hall. by right.
Qed.

Lemma Counter_nonempty (l : list Z) : l ≠ [] → Py.Counter l ≠ [].
Proof.
  assert (Hincr : ∀ p c, Py.counter_incr p c ≠ []).
  { intros p [|[q n] c]; simpl; [done|]. by destruct (p =? q). }
  assert (Hfold : ∀ l c, c ≠ [] → foldl (fun c p => Py.counter_incr p c) c l ≠ []).
  { clear l. induction l as [|p l IH]; intros c Hc; [done|]. simpl. apply IH, Hincr. }
  destruct l as [|p l]; [done|]. intros _. unfold Py.Counter. cbn [foldl].
  apply Hfold, Hincr.
Qed.

Lemma most_common_nonempty (l : list Z) :
  l ≠ [] → (Py.most_common 6 (Py.Counter l)).*1 ≠ [].
Proof.
  intros Hl%Counter_nonempty. unfold Py.most_common.
  pose proof (Permutation_length (sorted_by_count_perm (Py.Counter l))) as Hlen.
  destruct (Py.Counter l) as [|x c]; [done|].
  destruct (Py.sorted_by_count (x :: c)) as [|y s]; [done|]. done.
Qed.

Lemma window_chords_resolve (window_notes : list Z) (chords : list string) :
  Forall (fun p => 0 ≤ p < 12) window_notes → (3 ≤ length window_notes)%nat →
  let chord_pitches := (Py.most_common 6 (Py.Counter window_notes)).*1 in
  pitches_to_chord_name chord_pitches = Done (Some (resolve_spec chord_pitches))
  ∧ window_chords window_notes chords
    = Done (append_chord (Some (resolve_spec chord_pitches)) chords).
Proof.
  intros Hrange Hlen chord_pitches.
  assert (Hne : chord_pitches ≠ []).
  { apply most_common_nonempty. destruct window_notes; [simpl in Hlen; lia|done]. }
  assert (Hname : pitches_to_chord_name chord_pitches
                  = Done (Some (resolve_spec chord_pitches))).
  { apply pitches_to_chord_name_resolve; [done|].
    apply Forall_forall. intros q Hq%most_common_keys.
    by apply (proj1 (Forall_forall _ _) Hrange). }
  split; [done|]. unfold window_chords.
  replace (3 <=? length window_notes)%nat with true
    by (symmetry; by apply Nat.leb_le).
  fold chord_pitches. destruct chord_pitches as [|p ps]; [done|].
  by rewrite Hname.
Qed.

Lemma sustained_window (all_notes : list Note) (T t ws : Q) :
  (0 <= t)%Q → (t < T)%Q →
  (∀ n : Note, n ∈ all_notes → (start n <= 0)%Q ∧ (end_ n == T)%Q) →
  collect_window_notes t ws all_notes = pitch_class <$> all_notes.
Proof.
  intros Ht0 HtT Hall. rewrite collect_window_notes_filter. f_equal.
  apply filter_all. intros n Hn. destruct (Hall n Hn) as [Hs He].
  apply note_in_window_iff. left. split.
  - by eapply Qle_trans.
  - by rewrite He.
Qed.

Lemma append_chord_repeat (name : string) :
  name ∈ chord_vocabulary →
  append_chord (Some name) [] = [name]
  ∧ append_chord (Some name) [name] = [name].
Proof.
  intros Hv. rewrite !append_chord_vocabulary by done.
  unfold differs_from_last. simpl. by rewrite String.eqb_refl.
Qed.

Lemma run_windows_sustained (all_notes : list Note) (T : Q) (name : string)
    (k i : nat) (st : loop_state) :
  (0 < T)%Q → name ∈ chord_vocabulary →
  (∀ (t : Q) (c : list string), (0 <= t)%Q → (t < T)%Q →
     window_chords (collect_window_notes t (window_size_of T) all_notes) c
     = Done (append_chord (Some name) c)) →
  (current_time st == nQ i * window_size_of T)%Q →
  (i + k ≤ Z.to_nat (num_windows_of T))%nat →
  chords st = [] ∧ i = 0%nat ∨ chords st = [name] →
  ∃ st' : loop_state,
    run_windows k all_notes (window_size_of T) st = Done st'
    ∧ (chords st' = [name] ∨ (k = 0%nat ∧ chords st' = chords st)).
Proof.
  intros HT Hv Hwin. revert i st. induction k as [|k IH]; intros i st Ht Hik Hc.
  - exists st. split; [done|]. by right.
  - cbn [run_windows]. unfold window_step.
    rewrite (collect_window_notes_Qeq _ _ _ _ Ht).
    rewrite Hwin.
    2:{ apply Qmult_le_0_compat; [|apply Qlt_le_weak, window_size_of_pos, HT].
        unfold nQ. change 0%Q with (inject_Z 0). rewrite <- Zle_Qle. lia. }
    2:{ apply window_start_lt; [done|lia]. }
    cbn [mbind outcome_bind].
    destruct (append_chord_repeat name Hv) as [H0 H1].
    destruct (IH (S i) {| current_time := current_time st + window_size_of T;
                          chords := append_chord (Some name) (chords st) |})
      as (st' & Hrun & Hst').
    + cbn [current_time]. rewrite Ht, nQ_S. ring.
    + lia.
    + right. cbn [chords]. destruct Hc as [[-> _]| ->]; done.
    + exists st'. split; [done|]. left.
      destruct Hst' as [Hst'|[_ Hst']]; [done|].
      rewrite Hst'. cbn [chords]. destruct Hc as [[-> _]| ->]; done.
Qed.

(** X23.  When at least three notes all sound from the start to the end of
    the recording, every window sees the same notes and the result is a
    single chord: the name [pitches_to_chord_name] gives to the (at most 6)
    most common pitch classes of the notes. *)
Theorem sustained_chord_single_name :
  ∀ (fuel : nat) (all_notes : list Note) (T : Q),
    (17 ≤ fuel)%nat → (3 ≤ length all_notes)%nat → (0 < T)%Q →
    (∀ n : Note, n ∈ all_notes → (start n <= 0)%Q ∧ (end_ n == T)%Q) →
    ∃ name : string,
      pitches_to_chord_name
        (Py.most_common 6
           (Py.Counter (pitch_class <$> Py.sorted_by start all_notes))).*1
      = Done (Some name)
      ∧ windowed_chords fuel all_notes = Done [name]
      ∧ midi_to_chords fuel (one_track all_notes) = Done (Some name).
Proof.
  intros fuel all_notes T Hfuel Hlen HT Hall.
  assert (Hne : all_notes ≠ []) by (destruct all_notes; [simpl in Hlen; lia|done]).
  set (sorted_notes := Py.sorted_by start all_notes).
  set (P := pitch_class <$> sorted_notes).
  assert (HlenP : (3 ≤ length P)%nat).
  { subst P sorted_notes.
    by rewrite length_fmap, (Permutation_length (sorted_by_perm start all_notes)). }
  assert (HrangeP : Forall (fun p => 0 ≤ p < 12) P).
  { subst P. apply Forall_fmap, Forall_forall. intros n _.
    apply Z.mod_pos_bound. lia. }
  destruct (window_chords_resolve P [] HrangeP HlenP) as [Hname _].
  set (name := resolve_spec (Py.most_common 6 (Py.Counter P)).*1) in *.
  assert (Hv : name ∈ chord_vocabulary)
    by (by eapply pitches_to_chord_name_vocabulary).
  exists name. split; [done|].
  destruct (song_length_spec all_notes Hne) as (T' & HT' & Hin & _).
  assert (HTT : (T' == T)%Q).
  { apply list_elem_of_fmap in Hin as (n & -> & Hn). by destruct (Hall n Hn). }
  assert (HT'pos : (0 < T')%Q) by (by rewrite HTT).
  assert (Hsorted : ∀ n : Note, n ∈ sorted_notes → (start n <= 0)%Q ∧ (end_ n == T')%Q).
  { intros n Hn. subst sorted_notes. rewrite (sorted_by_perm start all_notes) in Hn.
    destruct (Hall n Hn) as [Hs He]. split; [done|]. by rewrite He, HTT. }
  assert (Hw : windowed_chords fuel all_notes = Done [name]).
  { rewrite windowed_chords_unroll, HT' by done. cbn [mbind outcome_bind].
    fold sorted_notes.
    destruct (run_windows_sustained sorted_notes T' name (iterations T') 0
                initial_state HT'pos Hv) as (st & Hrun & Hst).
    - intros t c Ht0 HtT. rewrite (sustained_window sorted_notes T' t _ Ht0 HtT Hsorted).
      exact (proj2 (window_chords_resolve P c HrangeP HlenP)).
    - unfold nQ. simpl. by rewrite Qmult_0_l.
    - unfold iterations. destruct (Py.Qlt_bool 0 T'); lia.
    - by left.
    - rewrite Hrun. cbn [mbind outcome_bind]. destruct Hst as [->|[Hit _]]; [done|].
      unfold iterations in Hit. rewrite (proj2 (Qlt_bool_iff 0 T') HT'pos) in Hit.
      pose proof (num_windows_of_bounds T'). lia. }
  split; [done|].
  unfold midi_to_chords, midi_to_chords_try, unique_chords_of.
  change (gather_notes (one_track all_notes)) with ([] ++ all_notes).
  rewrite app_nil_l, Hw. destruct all_notes; [done|].
  cbn [mbind outcome_bind unique_loop]. done.
Qed.

Lemma sustained_chord_single_name_witness :
  ∃ name : string,
    pitches_to_chord_name
      (Py.most_common 6
         (Py.Counter (pitch_class <$> Py.sorted_by start C_triad_4s))).*1
    = Done (Some name)
    ∧ windowed_chords 17 C_triad_4s = Done [name]
    ∧ midi_to_chords 17 (one_track C_triad_4s) = Done (Some name).
Proof.
  apply (sustained_chord_single_name 17 C_triad_4s 4).
  - lia.
  - simpl. lia.
  - reflexivity.
  - intros n Hn. unfold C_triad_4s in Hn.
    repeat (apply elem_of_cons in Hn as [->|Hn]); [| | |by apply elem_of_nil in Hn];
      (split; [discriminate|reflexivity]).
Defined.

(** ** Instances of the properties above *)

Lemma final_pass_first_8_distinct_witness :
  "G" ∈ ["C"; "G"; "C"; "G"].
Proof.
  apply (proj2 (proj2 (proj2 (final_pass_first_8_distinct ["C"; "G"; "C"; "G"]))) "G").
  vm_compute. right. left.
Defined.

Lemma process_all_midis_entries_witness :
  ∃ (midi_file : string) (row : song_row),
    midi_file ∈ ["x.mid"]
    ∧ Some "C - G" = Some (res_chords (result_for "x.mid" "C - G" hey_jude_row))
    ∧ res_chords (result_for "x.mid" "C - G" hey_jude_row) ≠ ""
    ∧ Some hey_jude_row = Some row ∧ song_id row = 7
    ∧ res_title (result_for "x.mid" "C - G" hey_jude_row) = song_title row
    ∧ res_artist (result_for "x.mid" "C - G" hey_jude_row) = song_artist row
    ∧ res_year (result_for "x.mid" "C - G" hey_jude_row) = song_year row
    ∧ res_midi_file (result_for "x.mid" "C - G" hey_jude_row) = midi_file.
Proof.
  apply (proj2 (process_all_midis_entries (fun _ => Some "C - G")
                  (fun _ => Some hey_jude_row) ["x.mid"] None) 7
           (result_for "x.mid" "C - G" hey_jude_row)).
  vm_compute. reflexivity.
Defined.


(** * The program over the machine's arithmetic *)

(** ** Rounding: where binary64 and the exact arithmetic part *)

(** 8.4 + 2.1 is 10.5 once rounded: a note that starts at 10.5 is outside
    the window that starts at 8.4 and has size 2.1. *)
Example binary64_sum_rounds :
  Machine.note_in_window Machine.binary64
    (Machine.start _ (float_note 0 84 10 0 1)) (Machine.start _ (float_note 0 21 10 0 1))
    (float_note 60 105 10 12 1) = false.
Proof. vm_compute. reflexivity. Qed.

(** Without rounding the same note, at the same three numbers, is inside. *)
Example exact_sum_does_not_round :
  note_in_window
    (exact_value (Machine.start _ (float_note 0 84 10 0 1)))
    (exact_value (Machine.start _ (float_note 0 21 10 0 1)))
    (note 60 (exact_value (Machine.start _ (float_note 60 105 10 12 1))) 12) = true.
Proof. vm_compute. reflexivity. Qed.

(** A song of 32.013636363636365 seconds has 16 windows, and the loop runs
    17 times: the 17th start is the rounded sum of 16 rounded sizes, and
    below the length of the song. *)
Example binary64_loop_runs_17 :
  ∃ ws : float,
    Machine.window_plan Machine.binary64
      [float_note 60 0 1 7043 220]
    = Done (Machine.end_ _ (float_note 60 0 1 7043 220), ws)
    ∧ Machine.loop_runs Machine.binary64
        (Machine.end_ _ (float_note 60 0 1 7043 220)) ws 17.
Proof.
  eexists. split; [vm_compute; reflexivity|]. split.
  - intros i Hi.
    do 17 (destruct i as [|i]; [vm_compute; reflexivity|]). lia.
  - vm_compute. reflexivity.
Qed.

(** The 7th window of a song of 19.5 seconds starts at 12.999999999999998:
    it still sees the two notes that end at 13. *)
Example binary64_rounded_window_start :
  Machine.midi_to_chords Machine.binary64 17
    (float_track [float_note 65 8 1 13 1; float_note 64 15 1 39 2;
                  float_note 69 10 1 13 1])
  = Done (Some "F")
  ∧ midi_to_chords 17
      (one_track [note 65 8 13; note 64 15 (39 # 2); note 69 10 13])
    = Done None.
Proof. split; vm_compute; reflexivity. Qed.

(** ** The exact instance is the model above *)

Lemma exact_gather_notes (m : PrettyMIDI) :
  Machine.gather_notes Machine.exact (exact_midi m) = exact_note <$> gather_notes m.
Proof.
  unfold Machine.gather_notes, gather_notes, exact_midi.
  cbn [Machine.instruments].
  enough (Hgen : ∀ acc,
    foldl (fun all_notes instrument =>
             if negb (Machine.is_drum Machine.exact instrument)
             then all_notes ++ Machine.notes Machine.exact instrument
             else all_notes)
          (exact_note <$> acc) (exact_instrument <$> instruments m)
    = exact_note <$> foldl (fun all_notes instrument =>
                              if negb (is_drum instrument)
                              then all_notes ++ notes instrument
                              else all_notes) acc (instruments m))
    by apply (Hgen []).
  induction (instruments m) as [|i l IH]; intros acc; [done|].
  cbn [fmap list_fmap foldl exact_instrument Machine.is_drum Machine.notes].
  destruct (is_drum i); cbn [negb]; [apply IH|].
  rewrite <- fmap_app. apply IH.
Qed.

Lemma exact_insert_by_start (x : Note) (l : list Note) :
  Machine.insert_by_start Machine.exact (exact_note x) (exact_note <$> l)
  = exact_note <$> Py.insert_by start x l.
Proof.
  induction l as [|y l IH]; [done|].
  cbn [fmap list_fmap Machine.insert_by_start Py.insert_by].
  cbn [exact_note Machine.start Machine.ltb Machine.exact].
  destruct (Py.Qlt_bool (start y) (start x)); [|done].
  cbn [fmap list_fmap]. f_equal. apply IH.
Qed.

Lemma exact_sorted_by_start (l : list Note) :
  Machine.sorted_by_start Machine.exact (exact_note <$> l)
  = exact_note <$> Py.sorted_by start l.
Proof.
  induction l as [|x l IH]; [done|].
  cbn [fmap list_fmap Machine.sorted_by_start Py.sorted_by].
  change (list_fmap Note (Machine.Note Machine.exact) exact_note l)
    with (exact_note <$> l).
  rewrite IH. apply exact_insert_by_start.
Qed.

Lemma exact_song_length_of (l : list Note) :
  Machine.song_length_of Machine.exact (exact_note <$> l) = Py.max (end_ <$> l).
Proof.
  destruct l as [|x rest]; [done|].
  cbn [fmap list_fmap Machine.song_length_of Py.max].
  do 2 f_equal. 
  change (list_fmap Note (Machine.Note Machine.exact) exact_note rest)
    with (exact_note <$> rest).
  rewrite <- list_fmap_compose. done.
Qed.

Lemma exact_window_plan (l : list Note) (T : Q) :
  Py.max (end_ <$> l) = Done T →
  Machine.window_plan Machine.exact (exact_note <$> l) = Done (T, window_size_of T).
Proof.
  intros HT. unfold Machine.window_plan. rewrite exact_song_length_of, HT. done.
Qed.

Lemma exact_collect_window_notes (t ws : Q) (l : list Note) :
  Machine.collect_window_notes Machine.exact t ws (exact_note <$> l)
  = collect_window_notes t ws l.
Proof.
  unfold Machine.collect_window_notes, collect_window_notes.
  enough (Hgen : ∀ acc,
    foldl (fun window_notes note =>
             if Machine.note_in_window Machine.exact t ws note
             then window_notes ++ [Machine.pitch Machine.exact note mod 12]
             else window_notes) acc (exact_note <$> l)
    = foldl (fun window_notes note =>
               if note_in_window t ws note then window_notes ++ [pitch note mod 12]
               else window_notes) acc l)
    by apply (Hgen []).
  induction l as [|n l IH]; intros acc; [done|].
  cbn [fmap list_fmap foldl]. apply IH.
Qed.

Lemma exact_while_loop (fuel : nat) (l : list Note) (T ws : Q) (st : loop_state) :
  Machine.while_loop Machine.exact fuel (exact_note <$> l) T ws
    (Machine.Build_loop_state Machine.exact (current_time st) (chords st))
  = (fun st' => Machine.Build_loop_state Machine.exact (current_time st') (chords st'))
      <$> while_loop fuel l T ws st.
Proof.
  revert st. induction fuel as [|fuel IH]; intros st; [done|].
  cbn [Machine.while_loop while_loop Machine.current_time Machine.ltb Machine.exact].
  destruct (Py.Qlt_bool (current_time st) T); [|done].
  unfold Machine.window_step, window_step.
  cbn [Machine.current_time Machine.chords Machine.add Machine.exact].
  rewrite exact_collect_window_notes.
  destruct (window_chords _ (chords st)) as [cs|e|]; [|done..].
  cbn [mbind outcome_bind].
  apply (IH {| current_time := current_time st + ws; chords := cs |}).
Qed.

Lemma exact_windowed_chords (fuel : nat) (l : list Note) :
  Machine.windowed_chords Machine.exact fuel (exact_note <$> l)
  = windowed_chords fuel l.
Proof.
  unfold Machine.windowed_chords, windowed_chords.
  rewrite exact_sorted_by_start.
  destruct (Py.max (end_ <$> Py.sorted_by start l)) as [T|e|] eqn:HT.
  - rewrite (exact_window_plan _ T HT). cbn [mbind outcome_bind fst snd].
    pose proof (exact_while_loop fuel (Py.sorted_by start l) T (window_size_of T)
                  initial_state) as H.
    cbn [current_time chords initial_state] in H.
    unfold Machine.initial_state. cbn [Machine.of_int Machine.exact].
    change (inject_Z 0) with 0%Q. rewrite H.
    by destruct (while_loop _ _ _ _ _).
  - unfold Machine.window_plan. by rewrite exact_song_length_of, HT.
  - unfold Machine.window_plan. by rewrite exact_song_length_of, HT.
Qed.

(** The program over exact arithmetic is the exact model: every theorem
    about [midi_to_chords] above is a theorem about [Machine.midi_to_chords]
    at [Machine.exact]. *)
Lemma exact_midi_to_chords (fuel : nat) (m : PrettyMIDI) :
  Machine.midi_to_chords Machine.exact fuel (exact_midi m) = midi_to_chords fuel m.
Proof.
  unfold Machine.midi_to_chords, midi_to_chords,
    Machine.midi_to_chords_try, midi_to_chords_try,
    Machine.unique_chords_of, unique_chords_of.
  rewrite exact_gather_notes.
  destruct (gather_notes m) as [|n l] eqn:E; [done|].
  change (exact_note <$> n :: l) with (exact_note n :: (exact_note <$> l)).
  cbv beta iota.
  change (exact_note n :: (exact_note <$> l)) with (exact_note <$> n :: l).
  by rewrite exact_windowed_chords.
Qed.

(** ** One window *)

Lemma machine_collect_filter (A : Machine.arithmetic) (t S : Machine.time A)
    (all_notes : list (Machine.Note A)) :
  Machine.collect_window_notes A t S all_notes
  = (fun n => Machine.pitch A n mod 12)
    <$> List.filter (Machine.note_in_window A t S) all_notes.
Proof.
  unfold Machine.collect_window_notes.
  enough (Hgen : ∀ acc,
    foldl (fun window_notes note =>
             if Machine.note_in_window A t S note
             then window_notes ++ [Machine.pitch A note mod 12]
             else window_notes) acc all_notes
    = acc ++ ((fun n => Machine.pitch A n mod 12)
              <$> List.filter (Machine.note_in_window A t S) all_notes))
    by apply (Hgen []).
  induction all_notes as [|n l IH]; intros acc; simpl.
  - by rewrite app_nil_r.
  - rewrite IH. destruct (Machine.note_in_window A t S n); [|done].
    by rewrite <- app_assoc.
Qed.

Lemma machine_collect_range (A : Machine.arithmetic) (t S : Machine.time A)
    (all_notes : list (Machine.Note A)) :
  Forall (fun p => 0 ≤ p < 12) (Machine.collect_window_notes A t S all_notes).
Proof.
  rewrite machine_collect_filter. apply Forall_fmap, Forall_forall.
  intros n _. apply Z.mod_pos_bound. lia.
Qed.

(** C5.  Whatever the arithmetic of the times, a window with start [t] and
    size [S] collects [pitch mod 12] of exactly the notes with
    [start <= t < end] or [t <= start < t + S], one instance for each such
    note, in the order of the notes; [<=], [<] and [+] are the comparisons
    and the (rounded) sum of the arithmetic. *)
Theorem window_collects_qualifying_notes :
  ∀ (A : Machine.arithmetic) (t S : Machine.time A)
    (all_notes : list (Machine.Note A)),
    Machine.collect_window_notes A t S all_notes
    = (fun n => Machine.pitch A n mod 12)
      <$> List.filter (Machine.note_in_window A t S) all_notes
    ∧ (∀ n : Machine.Note A,
         Machine.note_in_window A t S n = true ↔ Machine.qualifies A t S n)
    ∧ length (Machine.collect_window_notes A t S all_notes)
      = length (List.filter (Machine.note_in_window A t S) all_notes).
Proof.
  intros A t S all_notes. split; [apply machine_collect_filter|]. split.
  - intros n. unfold Machine.note_in_window, Machine.qualifies.
    by rewrite orb_true_iff, !andb_true_iff.
  - by rewrite machine_collect_filter, length_fmap.
Qed.

(** ** The loop *)

Lemma machine_window_step_name (A : Machine.arithmetic)
    (all_notes : list (Machine.Note A)) (ws : Machine.time A)
    (st : Machine.loop_state A) :
  Machine.window_step A all_notes ws st
    = Done (Machine.Build_loop_state A
              (Machine.add A (Machine.current_time A st) ws) (Machine.chords A st))
  ∨ ∃ name : string,
      name ∈ chord_vocabulary
      ∧ Machine.window_step A all_notes ws st
        = Done (Machine.Build_loop_state A
                  (Machine.add A (Machine.current_time A st) ws)
                  (append_chord (Some name) (Machine.chords A st))).
Proof.
  unfold Machine.window_step.
  destruct (window_chords_name
              (Machine.collect_window_notes A (Machine.current_time A st) ws all_notes)
              (Machine.chords A st) (machine_collect_range _ _ _ _))
    as [->|(name & Hv & ->)].
  - by left.
  - right. by exists name.
Qed.


(** The loop, entered at the start of window [i] with [k] runs to go: it
    returns, every appended name is of the vocabulary, and at most [k] names
    are appended. *)
Lemma machine_while_loop_runs (A : Machine.arithmetic) (Inv : list string → Prop)
    (all_notes : list (Machine.Note A)) (T ws : Machine.time A) :
  (∀ (chords : list string) (name : string),
     Inv chords → name ∈ chord_vocabulary → Inv (append_chord (Some name) chords)) →
  ∀ (k i fuel : nat) (st : Machine.loop_state A),
    Machine.current_time A st = Machine.window_start A ws i →
    (∀ j : nat, (i ≤ j < i + k)%nat →
       Machine.ltb A (Machine.window_start A ws j) T = true) →
    Machine.ltb A (Machine.window_start A ws (i + k)) T = false →
    (k < fuel)%nat →
    Inv (Machine.chords A st) →
    ∃ st' : Machine.loop_state A,
      Machine.while_loop A fuel all_notes T ws st = Done st'
      ∧ Inv (Machine.chords A st')
      ∧ (length (Machine.chords A st') ≤ length (Machine.chords A st) + k)%nat.
Proof.
  intros Hstep k. induction k as [|k IH]; intros i fuel st Ht Hgo Hstop Hfuel Hinv.
  - destruct fuel as [|fuel]; [lia|]. cbn [Machine.while_loop].
    rewrite Nat.add_0_r in Hstop. rewrite Ht, Hstop.
    exists st. split; [done|]. split; [done|]. lia.
  - destruct fuel as [|fuel]; [lia|]. cbn [Machine.while_loop].
    rewrite Ht, (Hgo i) by lia.
    assert (Hnext : ∀ cs : list string, Inv cs →
              (length cs ≤ S (length (Machine.chords A st)))%nat →
              ∃ st' : Machine.loop_state A,
                Machine.while_loop A fuel all_notes T ws
                  (Machine.Build_loop_state A
                     (Machine.add A (Machine.current_time A st) ws) cs) = Done st'
                ∧ Inv (Machine.chords A st')
                ∧ (length (Machine.chords A st')
                   ≤ length (Machine.chords A st) + S k)%nat).
    { intros cs Hcs Hlen.
      destruct (IH (S i) fuel
                  (Machine.Build_loop_state A
                     (Machine.add A (Machine.current_time A st) ws) cs))
        as (st' & Hrun & Hinv' & Hlen').
      - cbn [Machine.current_time Machine.window_start]. by rewrite Ht.
      - intros j Hj. apply Hgo. lia.
      - by replace (S i + k)%nat with (i + S k)%nat by lia.
      - lia.
      - done.
      - exists st'. split; [done|]. split; [done|].
        cbn [Machine.chords] in Hlen'. lia. }
    destruct (machine_window_step_name A all_notes ws st) as [->|(name & Hv & ->)];
      cbn [mbind outcome_bind]; apply Hnext.
    + done.
    + lia.
    + by apply Hstep.
    + apply append_chord_length.
Qed.


Lemma machine_windowed_chords_unroll (A : Machine.arithmetic) (fuel : nat)
    (all_notes : list (Machine.Note A)) (T ws : Machine.time A) :
  Machine.window_plan A (Machine.sorted_by_start A all_notes) = Done (T, ws) →
  Machine.windowed_chords A fuel all_notes
  = (st ← Machine.while_loop A fuel (Machine.sorted_by_start A all_notes) T ws
            (Machine.initial_state A);
     Done (Machine.chords A st)).
Proof.
  intros Hplan. unfold Machine.windowed_chords. by rewrite Hplan.
Qed.


(** ** Windows that collect fewer than three notes *)








(** ** The list [chords] the loop builds *)

(** X5.  Whatever the arithmetic of the times: when the loop runs [n] times,
    the list [chords] it builds has no two equal neighbours, holds names of
    the vocabulary only, and has at most [n] elements (one per window it
    visits at most). *)
Theorem windowed_chords_shape :
  ∀ (A : Machine.arithmetic) (fuel n : nat) (all_notes : list (Machine.Note A))
    (T ws : Machine.time A),
    Machine.window_plan A (Machine.sorted_by_start A all_notes) = Done (T, ws) →
    Machine.loop_runs A T ws n →
    (n < fuel)%nat →
    ∃ chords : list string,
      Machine.windowed_chords A fuel all_notes = Done chords
      ∧ (∀ (i : nat) (x y : string),
           chords !! i = Some x → chords !! S i = Some y → x ≠ y)
      ∧ Forall (fun name => name ∈ chord_vocabulary) chords
      ∧ (length chords ≤ n)%nat.
Proof.
  intros A fuel n all_notes T ws Hplan [Hgo Hstop] Hfuel.
  rewrite (machine_windowed_chords_unroll A fuel _ T ws Hplan).
  destruct (machine_while_loop_runs A
              (fun cs => no_adjacent_repeat cs
                         ∧ Forall (fun name => name ∈ chord_vocabulary) cs)
              (Machine.sorted_by_start A all_notes) T ws)
    with (k := n) (i := 0%nat) (fuel := fuel) (st := Machine.initial_state A)
    as (st & -> & [Hadj Hvoc] & Hlen).
  - intros cs name [Hadj Hvoc] Hname. split.
    + by apply append_chord_no_adjacent_repeat.
    + rewrite append_chord_vocabulary by done.
      destruct (differs_from_last name cs); [|done].
      apply Forall_app. split; [done|]. by constructor.
  - done.
  - intros j Hj. apply Hgo. lia.
  - done.
  - done.
  - split; [by intros i x y Hx|constructor].
  - exists (Machine.chords A st). cbn [mbind outcome_bind].
    split; [done|]. split; [exact Hadj|]. split; [done|].
    cbn [Machine.chords Machine.initial_state length] in Hlen. lia.
Qed.

Lemma windowed_chords_shape_witness :
  ∃ chords : list string,
    Machine.windowed_chords Machine.exact 17
      (exact_note <$> gather_notes alternating_C_G) = Done chords
    ∧ (∀ (i : nat) (x y : string),
         chords !! i = Some x → chords !! S i = Some y → x ≠ y)
    ∧ Forall (fun name => name ∈ chord_vocabulary) chords
    ∧ (length chords ≤ 8)%nat.
Proof.
  apply (windowed_chords_shape Machine.exact 17 8
           (exact_note <$> gather_notes alternating_C_G) (8 # 1)%Q (8 # 8)%Q).
  - vm_compute. reflexivity.
  - split.
    + intros i Hi. do 8 (destruct i as [|i]; [vm_compute; reflexivity|]). lia.
    + vm_compute. reflexivity.
  - lia.
Defined.
